(** * Library synchronisation of the Monaco editor (script-lab)

    A shallow embedding of [src/client/app/effects/monaco.ts]: the class
    [MonacoEffects] with its reference resolver ([_parse]), its content cache
    access ([_get]), its adapter selection ([_determineSource]) and the two
    effects [updateIntellisense$] and [addIntellisense$], followed by the
    properties of the library synchronisation engine.

    Strings are sequences of code units; a Rocq [ascii] stands for a code unit
    in the range U+0000..U+00FF. *)

From Stdlib Require Import Ascii String.
From stdpp Require Import gmap strings list.

Open Scope string_scope.
Open Scope list_scope.

(** ** JavaScript string primitives used by the source *)

Module JS.

(** White space and line terminators of ECMAScript within U+0000..U+00FF:
    TAB, LF, VT, FF, CR, SP and NBSP. *)
Definition isWhiteSpace (c : ascii) : bool :=
  let n := nat_of_ascii c in
  (((9 <=? n) && (n <=? 13)) || (n =? 32) || (n =? 160))%nat.

Definition isLineTerminator (c : ascii) : bool :=
  let n := nat_of_ascii c in ((n =? 10) || (n =? 13))%nat.

Fixpoint trimStart (s : string) : string :=
  match s with
  | String c s' => if isWhiteSpace c then trimStart s' else s
  | EmptyString => EmptyString
  end.

Definition trimEnd (s : string) : string :=
  String.rev (trimStart (String.rev s)).

(** [String.prototype.trim] *)
Definition trim (s : string) : string := trimEnd (trimStart s).

(** [String.prototype.startsWith] *)
Definition startsWith (s searchString : string) : bool :=
  String.prefix searchString s.

(** Canonicalisation of the [i] flag on the code units that can match an
    ASCII letter of a pattern. *)
Definition toLower (c : ascii) : ascii :=
  let n := nat_of_ascii c in
  if ((65 <=? n) && (n <=? 90))%nat then ascii_of_nat (n + 32) else c.

(** The regular expressions of the source are sequences of literal
    characters and [.], anchored at one end of the input. *)
Inductive atom : Type :=
| Lit (c : ascii)
| Dot.

Definition atomMatches (ignoreCase : bool) (a : atom) (c : ascii) : bool :=
  match a with
  | Lit x =>
      if ignoreCase then Ascii.eqb (toLower x) (toLower c) else Ascii.eqb x c
  | Dot => negb (isLineTerminator c)
  end.

Fixpoint matchHere (ignoreCase : bool) (p : list atom) (s : string) : bool :=
  match p, s with
  | [], _ => true
  | a :: p', String c s' => atomMatches ignoreCase a c && matchHere ignoreCase p' s'
  | _ :: _, EmptyString => false
  end.

Definition lits (s : string) : list atom := Lit <$> list_ascii_of_string s.

(** [/^p/.test(s)] *)
Definition testAtStart (ignoreCase : bool) (p : list atom) (s : string) : bool :=
  matchHere ignoreCase p s.

(** [/p$/.test(s)] *)
Definition testAtEnd (ignoreCase : bool) (p : list atom) (s : string) : bool :=
  matchHere ignoreCase (reverse p) (String.rev s).

(** [String.prototype.split] with a separator string that is not empty.
    [skip] counts the code units of a separator occurrence still to pass,
    [acc] is the current piece, reversed. *)
Fixpoint splitFrom (sep : string) (skip : nat) (acc : string) (s : string)
  : list string :=
  match s with
  | EmptyString => [String.rev acc]
  | String c s' =>
      match skip with
      | S k => splitFrom sep k acc s'
      | O =>
          if String.prefix sep s
          then String.rev acc :: splitFrom sep (String.length sep - 1) "" s'
          else splitFrom sep 0 (String c acc) s'
      end
  end.

Definition split (s sep : string) : list string := splitFrom sep 0 "" s.

(** [a[i]] inside a template literal: a missing element prints as
    [undefined]. *)
Definition index (a : list string) (i : nat) : string :=
  default "undefined" (a !! i).

End JS.

(** ** The reference resolver *)

(** The callback of [libraries.map] in [_parse]. *)
Definition _parse_library (tabName : string) (library : string) : option string :=
  let library := JS.trim library in
  if JS.testAtStart false (JS.lits "@types") library then
    if String.eqb tabName "customFunctions"
       && JS.startsWith library "@types/office-js"
    then None
    else Some ("https://unpkg.com/" +:+ library +:+ "/index.d.ts")
  else if JS.testAtStart false (JS.lits "dt~") library then
    let libName := JS.index (JS.split library "dt~") 1 in
    if String.eqb tabName "customFunctions" && String.eqb library "office-js"
    then None
    else Some ("https://raw.githubusercontent.com/DefinitelyTyped/DefinitelyTyped/master/types/"
               +:+ libName +:+ "/index.d.ts")
  else if JS.testAtEnd true (JS.lits ".d.ts") library then
    if String.eqb tabName "customFunctions"
       && JS.testAtEnd true
            (JS.lits "office" ++ [JS.Dot] ++ JS.lits "d" ++ [JS.Dot] ++ JS.lits "ts")
            library
    then None
    else if JS.testAtStart true (JS.lits "http:") library
            || JS.testAtStart true (JS.lits "https:") library
    then Some library
    else Some ("https://unpkg.com/" +:+ library)
  else None.

Definition _parse (libraries : list string) (tabName : string)
  : list (option string) :=
  _parse_library tabName <$> libraries.

(** ** Adapter selection *)

(** The two registration targets of [monaco.languages.typescript]. *)
Inductive Source : Type :=
| javascriptDefaults
| typescriptDefaults.

Definition _determineSource (language : string) : Source :=
  if String.eqb language "javascript" then javascriptDefaults
  else typescriptDefaults.

(** ** Data model *)

Record IIntellisenseFile : Type := {
  file_url : string;
  file_content : string
}.

(** A [monaco.IDisposable] is the handle that [addExtraLib] returned. *)
Record IDisposableFile : Type := {
  disposable_url : string;
  disposable : nat
}.

Inductive Exception : Type :=
| InvalidTabName                       (* new Error('Invalid tab name') *)
| KeyAlreadyExists (key : string)      (* Dictionary.add on a present key *)
| KeyNotFound (key : string)           (* Dictionary.remove on an absent key *)
| RequestError (detail : string)       (* the observable of _request.get errors *)
| AddExtraLibError                     (* source.addExtraLib throws *)
| MonacoNotDefined.                    (* ReferenceError: monaco is not defined *)

Inductive Result (A : Type) : Type :=
| Ok (a : A)
| Throw (e : Exception).
Arguments Ok {A} a.
Arguments Throw {A} e.

(** The messages of [Strings()] that the two effects report with. *)
Inductive Message : Type :=
| intellisenseUpdateError
| intellisenseClearError
| intellisenseLoadError.

Record Payload : Type := {
  libraries : list string;
  language : string;
  tabName : string
}.

Inductive Action : Type :=
| UpdateIntellisenseAction (payload : Payload)
| AddIntellisenseAction (url language : string)
| UpdateIntellisenseSuccessAction
| ReportErrorAction (message : Message) (exception : Exception).

(** [Dictionary<T>] of office-js-helpers, an object used as a map: [get]
    answers null for an absent key, [add] throws on a present key, [remove]
    throws on an absent one, [values] lists the values in insertion order. *)
Module Dictionary.

Definition t (A : Type) : Type := list (string * A).

Definition empty {A} : t A := [].

Fixpoint get {A} (key : string) (d : t A) : option A :=
  match d with
  | [] => None
  | (k, v) :: d' => if String.eqb key k then Some v else get key d'
  end.

Definition contains {A} (key : string) (d : t A) : bool :=
  match get key d with Some _ => true | None => false end.

Fixpoint insert {A} (key : string) (value : A) (d : t A) : t A :=
  match d with
  | [] => [(key, value)]
  | (k, v) :: d' =>
      if String.eqb key k then (k, value) :: d' else (k, v) :: insert key value d'
  end.

Definition add {A} (key : string) (value : A) (d : t A) : Result (t A) :=
  if contains key d then Throw (KeyAlreadyExists key)
  else Ok (insert key value d).

Fixpoint delete {A} (key : string) (d : t A) : t A :=
  match d with
  | [] => []
  | (k, v) :: d' => if String.eqb key k then d' else (k, v) :: delete key d'
  end.

Definition remove {A} (key : string) (d : t A) : Result (t A) :=
  if contains key d then Ok (delete key d)
  else Throw (KeyNotFound key).

Definition keys {A} (d : t A) : list string := fst <$> d.

Definition values {A} (d : t A) : list A := snd <$> d.

End Dictionary.

(** Calls on the collaborators of the class, in the order they are made. *)
Inductive Event : Type :=
| RequestGet (url : string)
    (* this._request.get(url, ResponseTypes.TEXT, ...) *)
| TrackEvent (url : string)
    (* AI.trackEvent(ADD_INTELLISENSE, { library: sha1(url) }) *)
| AddExtraLib (source : Source) (content url : string) (handle : option nat)
    (* source.addExtraLib(content, url), with the handle it returned *)
| Dispose (handle : nat).
    (* disposable.dispose() *)

(** An add waiting for [MonacoService.current], with the source that
    [_addIntellisense] chose when it was called. *)
Record Waiting : Type := {
  waiting_url : string;
  waiting_source : Source
}.

Record State : Type := {
  _current : Dictionary.t IDisposableFile;      (* this._current *)
  intellisenseCache : gmap string string;       (* storage.intellisenseCache *)
  updateAlive : bool;            (* updateIntellisense$ has not completed *)
  waiting : list Waiting;        (* adds waiting for MonacoService.current *)
  inflight : list Waiting;       (* requests without a response yet *)
  nextHandle : nat;
  calls : list Event;            (* oldest first *)
  dispatched : list Action       (* emitted by the effects, oldest first *)
}.

Definition with_current (d : Dictionary.t IDisposableFile) (s : State) : State :=
  {| _current := d; intellisenseCache := intellisenseCache s;
     updateAlive := updateAlive s; waiting := waiting s; inflight := inflight s;
     nextHandle := nextHandle s;
     calls := calls s; dispatched := dispatched s |}.

Definition with_cache (c : gmap string string) (s : State) : State :=
  {| _current := _current s; intellisenseCache := c;
     updateAlive := updateAlive s; waiting := waiting s; inflight := inflight s;
     nextHandle := nextHandle s;
     calls := calls s; dispatched := dispatched s |}.

Definition with_alive (b : bool) (s : State) : State :=
  {| _current := _current s; intellisenseCache := intellisenseCache s;
     updateAlive := b; waiting := waiting s; inflight := inflight s;
     nextHandle := nextHandle s;
     calls := calls s; dispatched := dispatched s |}.

Definition with_waiting (w : list Waiting) (s : State) : State :=
  {| _current := _current s; intellisenseCache := intellisenseCache s;
     updateAlive := updateAlive s; waiting := w; inflight := inflight s;
     nextHandle := nextHandle s;
     calls := calls s; dispatched := dispatched s |}.

Definition with_inflight (r : list Waiting) (s : State) : State :=
  {| _current := _current s; intellisenseCache := intellisenseCache s;
     updateAlive := updateAlive s; waiting := waiting s; inflight := r;
     nextHandle := nextHandle s;
     calls := calls s; dispatched := dispatched s |}.

Definition fresh_handle (s : State) : State :=
  {| _current := _current s; intellisenseCache := intellisenseCache s;
     updateAlive := updateAlive s; waiting := waiting s; inflight := inflight s;
     nextHandle := S (nextHandle s);
     calls := calls s; dispatched := dispatched s |}.

Definition call (e : Event) (s : State) : State :=
  {| _current := _current s; intellisenseCache := intellisenseCache s;
     updateAlive := updateAlive s; waiting := waiting s; inflight := inflight s;
     nextHandle := nextHandle s;
     calls := calls s ++ [e]; dispatched := dispatched s |}.

Definition emit (a : Action) (s : State) : State :=
  {| _current := _current s; intellisenseCache := intellisenseCache s;
     updateAlive := updateAlive s; waiting := waiting s; inflight := inflight s;
     nextHandle := nextHandle s;
     calls := calls s; dispatched := dispatched s ++ [a] |}.

(** The state of a session in which [constructor] has just run, over a
    given content cache. *)
Definition initial (cache : gmap string string) : State :=
  {| _current := Dictionary.empty; intellisenseCache := cache;
     updateAlive := true; waiting := []; inflight := [];
     nextHandle := 0; calls := []; dispatched := [] |}.

(** ** The content cache *)

(** What [_get] hands to its subscriber: a file at once, or nothing until
    the request it has just sent is answered. *)
Inductive Fetched : Type :=
| Now (file : IIntellisenseFile)
| Later.

Definition _get (url : string) (s : State) : State * Fetched :=
  if bool_decide (is_Some (intellisenseCache s !! url)) then
    let content := default "" (intellisenseCache s !! url) in
    (s, Now {| file_url := url; file_content := content |})
  else
    (call (RequestGet url) s, Later).

(** The two [map]s behind [_request.get], run on the content of a
    response; [insert] returns the value it stored. *)
Definition _get_next (url content : string) (s : State) : State * IIntellisenseFile :=
  let s := with_cache (<[url := content]> (intellisenseCache s)) s in
  (s, {| file_url := url; file_content := content |}).

(** ** The effect [addIntellisense$] *)

(** What the observable of [_addIntellisense] emits. *)
Inductive Emission : Type :=
| Intellisense (file : IDisposableFile)
| Reported (action : Action).

(** The [map] callback of [_addIntellisense]; [adapterReturns] tells whether
    [addExtraLib] returns a handle or throws. *)
Definition _addIntellisense_map (adapterReturns : bool) (source : Source)
    (file : IIntellisenseFile) (s : State) : State * Result IDisposableFile :=
  let s := call (TrackEvent (file_url file)) s in
  if adapterReturns then
    let handle := nextHandle s in
    let s := fresh_handle
               (call (AddExtraLib source (file_content file) (file_url file) (Some handle)) s) in
    let intellisense := {| disposable_url := file_url file; disposable := handle |} in
    match Dictionary.add (file_url file) intellisense (_current s) with
    | Ok d => (with_current d s, Ok intellisense)
    | Throw e => (s, Throw e)
    end
  else
    (call (AddExtraLib source (file_content file) (file_url file) None) s,
     Throw AddExtraLibError).

(** The [catch] of [_addIntellisense]. *)
Definition _addIntellisense_catch (r : Result IDisposableFile) : Emission :=
  match r with
  | Ok intellisense => Intellisense intellisense
  | Throw exception => Reported (ReportErrorAction intellisenseLoadError exception)
  end.

(** The [map] of [addIntellisense$], which does not look at its argument. *)
Definition addIntellisense_map (_ : Emission) : Action :=
  UpdateIntellisenseSuccessAction.

(** From the outcome of [_get] to the action of [addIntellisense$]. *)
Definition _addIntellisense_settle (adapterReturns : bool) (source : Source)
    (got : Result IIntellisenseFile) (s : State) : State :=
  let '(s, r) :=
    match got with
    | Ok file => _addIntellisense_map adapterReturns source file s
    | Throw e => (s, Throw e)
    end in
  emit (addIntellisense_map (_addIntellisense_catch r)) s.

(** [_addIntellisense] up to [fromPromise(MonacoService.current)], where
    the global [monaco] that [_determineSource] reads is defined; the session
    in which it is not defined yet is [session_step] below. *)
Definition _addIntellisense (url language : string) (s : State) : State :=
  let source := _determineSource language in
  with_waiting (waiting s ++ [{| waiting_url := url; waiting_source := source |}]) s.

(** [MonacoService.current] calls back for the oldest waiting add. *)
Definition monacoReady (adapterReturns : bool) (s : State) : State :=
  match waiting s with
  | [] => s
  | w :: rest =>
      let s := with_waiting rest s in
      match _get (waiting_url w) s with
      | (s, Now file) =>
          _addIntellisense_settle adapterReturns (waiting_source w) (Ok file) s
      | (s, Later) => with_inflight (inflight s ++ [w]) s
      end
  end.

(** The [i]-th outstanding request is answered. *)
Definition response (i : nat) (result : Result string) (adapterReturns : bool)
    (s : State) : State :=
  match inflight s !! i with
  | None => s
  | Some w =>
      let s := with_inflight (delete i (inflight s)) s in
      match result with
      | Ok content =>
          let '(s, file) := _get_next (waiting_url w) content s in
          _addIntellisense_settle adapterReturns (waiting_source w) (Ok file) s
      | Throw e =>
          _addIntellisense_settle adapterReturns (waiting_source w) (Throw e) s
      end
  end.

(** ** The effect [updateIntellisense$] *)

Section UpdateIntellisense.

(** [location.origin], and [getVersionedPackageUrl] of [../helpers]. *)
Variable origin : string.
Variable getVersionedPackageUrl : string → string → string → string.

Definition additionalLibraries (tabName : string) : Result (list string) :=
  if String.eqb tabName "script" then
    Ok [origin +:+ "/libs/auth-helpers.d.ts"]
  else if String.eqb tabName "customFunctions" then
    Ok [origin +:+ "/libs/custom-functions.d.ts";
        getVersionedPackageUrl origin "@microsoft/office-js" "office.d.ts"]
  else Throw InvalidTabName.

(** [url => url && url.trim() !== ''] *)
Definition nonBlank (url : option string) : bool :=
  match url with
  | Some u => negb (String.eqb u "") && negb (String.eqb (JS.trim u) "")
  | None => false
  end.

Definition urlsToInclude (libraries : list string) (tabName : string)
    (additionalLibraries : list string) : list string :=
  omap id (List.filter nonBlank
             (_parse libraries tabName ++ (Some <$> additionalLibraries))).

Definition urlsStillInNeedOfFetching (urlsToInclude : list string)
    (s : State) : list string :=
  List.filter (λ file, negb (Dictionary.contains file (_current s))) urlsToInclude.

(** [urlsToInclude.indexOf(url) < 0] *)
Definition notIncluded (urlsToInclude : list string) (url : string) : bool :=
  negb (bool_decide (url ∈ urlsToInclude)).

(** The callback over the unused files; an exception of [remove] ends it. *)
Fixpoint disposeUnused (unused : list IDisposableFile) (s : State)
  : State * option Exception :=
  match unused with
  | [] => (s, None)
  | unusedFile :: rest =>
      let s := call (Dispose (disposable unusedFile)) s in
      match Dictionary.remove (disposable_url unusedFile) (_current s) with
      | Ok d => disposeUnused rest (with_current d s)
      | Throw e => (s, Some e)
      end
  end.

(** The second [map] of [updateIntellisense$]. *)
Definition updateIntellisense_map (payload : Payload) (s : State)
  : State * Result (list string * string) :=
  match additionalLibraries (tabName payload) with
  | Throw e => (s, Throw e)
  | Ok additional =>
      let urlsToInclude := urlsToInclude (libraries payload) (tabName payload) additional in
      let urlsStillInNeedOfFetching := urlsStillInNeedOfFetching urlsToInclude s in
      let filesThatCanBeDisposed := Dictionary.values (_current s) in
      match disposeUnused
              (List.filter (λ file, notIncluded urlsToInclude (disposable_url file))
                 filesThatCanBeDisposed) s with
      | (s, Some e) => (s, Throw e)
      | (s, None) => (s, Ok (urlsToInclude, language payload))
      end
  end.

(** The [mergeMap] of [updateIntellisense$]: one [AddIntellisenseAction] a
    file, each of which [addIntellisense$] takes up at once. *)
Definition updateIntellisense_mergeMap (files : list string) (language : string)
    (s : State) : State :=
  foldl (λ s file, _addIntellisense file language
                     (emit (AddIntellisenseAction file language) s))
        s files.

(** [updateIntellisense$] on one [UPDATE_INTELLISENSE] action; its [catch]
    replaces the stream, which takes no further action then. *)
Definition updateIntellisense (payload : Payload) (s : State) : State :=
  if updateAlive s then
    match updateIntellisense_map payload s with
    | (s, Ok (files, language)) => updateIntellisense_mergeMap files language s
    | (s, Throw exception) =>
        with_alive false
          (emit (ReportErrorAction intellisenseUpdateError exception) s)
    end
  else s.

(** ** The session as a transition system *)

(** What happens to a session, one event of the event loop at a time: the
    store dispatches [UPDATE_INTELLISENSE]; the promise
    [MonacoService.current] calls back for the add that has waited longest;
    the [i]-th outstanding request is answered with its content or fails.
    [adapterReturns] is the outcome of [addExtraLib], should the event lead
    to that call. *)
Inductive Input : Type :=
| Dispatch (payload : Payload)
| MonacoReady (adapterReturns : bool)
| Response (i : nat) (result : Result string) (adapterReturns : bool).

Definition step (s : State) (input : Input) : State :=
  match input with
  | Dispatch payload => updateIntellisense payload s
  | MonacoReady adapterReturns => monacoReady adapterReturns s
  | Response i result adapterReturns => response i result adapterReturns s
  end.

Definition run (s : State) (inputs : list Input) : State :=
  foldl step s inputs.

(** No add is waiting and no request is outstanding. *)
Definition settled (s : State) : Prop :=
  waiting s = [] ∧ inflight s = [].

(** The locators that a payload asks for: the [files] of
    [updateIntellisense_map]. *)
Definition desiredLocators (payload : Payload) : Result (list string) :=
  match additionalLibraries (tabName payload) with
  | Ok additional =>
      Ok (urlsToInclude (libraries payload) (tabName payload) additional)
  | Throw e => Throw e
  end.

(** An input on which neither the request nor the adapter fails. *)
Definition succeeds (input : Input) : bool :=
  match input with
  | Dispatch _ => false
  | MonacoReady adapterReturns => adapterReturns
  | Response _ (Ok _) adapterReturns => adapterReturns
  | Response _ (Throw _) _ => false
  end.

End UpdateIntellisense.

(** ** Observations on the calls *)

Definition fetches (es : list Event) : list string :=
  omap (λ e, match e with RequestGet url => Some url | _ => None end) es.

Definition registers (es : list Event) : list string :=
  omap (λ e, match e with AddExtraLib _ _ url _ => Some url | _ => None end) es.

Definition disposes (es : list Event) : list nat :=
  omap (λ e, match e with Dispose handle => Some handle | _ => None end) es.

(** ** Invariants of the session *)

(** Every entry of [_current] is stored under its own [url]. *)
Definition keyed (d : Dictionary.t IDisposableFile) : Prop :=
  ∀ k f, (k, f) ∈ d → disposable_url f = k.

Definition accounted (s : State) : list string :=
  Dictionary.keys (_current s)
  ++ (waiting_url <$> waiting s) ++ (waiting_url <$> inflight s).

(** The locators of a pass are split between the registrations made, the
    adds that wait and the requests that are outstanding; [r0] and [d0] are
    the registrations and the disposals called before the adds began. *)
Record adding (D r0 : list string) (d0 : list nat) (s : State) : Prop := {
  adding_keyed : keyed (_current s);
  adding_nodup : NoDup (accounted s);
  adding_perm : accounted s ≡ₚ D;
  adding_registers : registers (calls s) = r0 ++ Dictionary.keys (_current s);
  adding_disposes : disposes (calls s) = d0
}.

(** The same split when a locator may be asked for more than once: the
    registrations have one entry a locator, and the locators of the pass are
    those registered, waiting or outstanding. *)
Record reconciling (D : list string) (d0 : list nat) (s : State) : Prop := {
  reconciling_keyed : keyed (_current s);
  reconciling_nodup : NoDup (Dictionary.keys (_current s));
  reconciling_locators : ∀ url, url ∈ D ↔ url ∈ accounted s;
  reconciling_disposes : disposes (calls s) = d0
}.

(** How often a locator occurs in a list of locators. *)
Definition occurrences (url : string) (l : list string) : nat :=
  length (List.filter (String.eqb url) l).

(** ** A sample session *)

Definition sampleOrigin : string := "https://localhost:3000".

(** A stand-in for [getVersionedPackageUrl], whose body is in [../helpers]. *)
Definition sampleVersionedPackageUrl (origin packageName filename : string)
  : string :=
  origin +:+ "/libs/" +:+ packageName +:+ "/" +:+ filename.

Definition scriptPayload : Payload :=
  {| libraries := []; language := "typescript"; tabName := "script" |}.

Definition customFunctionsPayload : Payload :=
  {| libraries := ["dt~lodash"]; language := "typescript";
     tabName := "customFunctions" |}.

Definition lodashPayload : Payload :=
  {| libraries := ["dt~lodash"]; language := "typescript"; tabName := "script" |}.

Definition twiceLodashPayload : Payload :=
  {| libraries := ["dt~lodash"; "dt~lodash"]; language := "javascript";
     tabName := "script" |}.

Definition stylePayload : Payload :=
  {| libraries := ["dt~lodash"]; language := "css"; tabName := "style" |}.

Definition customFunctionsDeclarations : string :=
  "https://localhost:3000/libs/custom-functions.d.ts".

Definition officeDeclarations : string :=
  "https://localhost:3000/libs/@microsoft/office-js/office.d.ts".

Definition authHelpers : string :=
  "https://localhost:3000/libs/auth-helpers.d.ts".

Definition lodash : string :=
  "https://raw.githubusercontent.com/DefinitelyTyped/DefinitelyTyped/master/types/lodash/index.d.ts".

(** ** Notions for the further properties *)

(** A string of white space only. *)
Fixpoint allWhiteSpace (s : string) : bool :=
  match s with
  | EmptyString => true
  | String c s' => JS.isWhiteSpace c && allWhiteSpace s'
  end.

(** [/^https?:/i.test(url)] *)
Definition absolute (url : string) : bool :=
  JS.testAtStart true (JS.lits "http:") url
  || JS.testAtStart true (JS.lits "https:") url.

(** The active registrations have one entry a locator, each stored under
    its own [url]. *)
Definition wellFormed (s : State) : Prop :=
  keyed (_current s) ∧ NoDup (Dictionary.keys (_current s)).

(** The entries of [_current] whose locator is among [D]. *)
Definition stillDesired (D : list string) (d : Dictionary.t IDisposableFile)
  : Dictionary.t IDisposableFile :=
  List.filter (λ entry, bool_decide (entry.1 ∈ D)) d.

(** The files of [_current] whose locator is not among [D], as the
    [filter] of [updateIntellisense$] lists them. *)
Definition noLongerDesired (D : list string) (d : Dictionary.t IDisposableFile)
  : list IDisposableFile :=
  List.filter (λ file, notIncluded D (disposable_url file)) (Dictionary.values d).

(** The handles that were disposed of and those of the active
    registrations. *)
Definition tracked (s : State) : list nat :=
  disposes (calls s) ++ (disposable <$> Dictionary.values (_current s)).

Definition isAdd (a : Action) : bool :=
  match a with AddIntellisenseAction _ _ => true | _ => false end.

Definition isSuccess (a : Action) : bool :=
  match a with UpdateIntellisenseSuccessAction => true | _ => false end.

(** [storage.intellisenseCache.contains(url)] *)
Definition cached (s : State) (url : string) : bool :=
  bool_decide (is_Some (intellisenseCache s !! url)).

(** The handles that [addExtraLib] returned. *)
Definition returned (es : list Event) : list nat :=
  omap (λ e, match e with AddExtraLib _ _ _ handle => handle | _ => None end) es.

(** Handles are told apart: those returned so far are the numbers below
    [nextHandle], and none is tracked twice. *)
Definition handlesDistinct (s : State) : Prop :=
  NoDup (tracked s)
  ∧ (∀ h, h ∈ tracked s → h < nextHandle s)
  ∧ returned (calls s) = seq 0 (nextHandle s).

Definition isDispatch (input : Input) : bool :=
  match input with Dispatch _ => true | _ => false end.

(** Every [AddIntellisenseAction] emitted so far is waiting, outstanding or
    answered by one [UpdateIntellisenseSuccessAction]. *)
Definition balanced (s : State) : Prop :=
  length (List.filter isAdd (dispatched s))
  = length (waiting s) + length (inflight s)
    + length (List.filter isSuccess (dispatched s)).

(** What is registered has been through [addExtraLib] and is in the
    cache. *)
Definition registeredCached (s : State) : Prop :=
  (∀ url, url ∈ Dictionary.keys (_current s) → url ∈ registers (calls s))
  ∧ (∀ url, url ∈ registers (calls s) → is_Some (intellisenseCache s !! url)).

(** A session in which the tab [script] was reconciled once. *)
Definition scriptSession : list Input :=
  [Dispatch scriptPayload; MonacoReady true;
   Response 0 (Ok "declare var x: number;") true].

(** A session in which the same pass was made twice. *)
Definition repeatedSession : list Input :=
  scriptSession ++ [Dispatch scriptPayload; MonacoReady true].

(** The locators of the [AddIntellisenseAction]s among the actions that
    the effects emitted. *)
Definition asked (actions : list Action) : list string :=
  omap (λ a, match a with AddIntellisenseAction url _ => Some url | _ => None end)
       actions.

(** ** The session and the global [monaco] *)

(** [_addIntellisense] calls [_determineSource] as soon as an
    [AddIntellisenseAction] arrives, before [MonacoService.current] is
    awaited, and both branches of [_determineSource] read the global
    [monaco]. Where the editor is not loaded yet the call throws inside the
    [mergeMap] of [addIntellisense$]: the adds that wait and the requests
    that are outstanding are unsubscribed, the [catch] of the effect reports
    [intellisenseClearError], and the effect completes. The definitions above
    are the session in which the global is defined; [Session] adds the
    global and the life of [addIntellisense$]. *)
Record Session : Type := {
  session_state : State;
  monacoDefined : bool;          (* the global monaco is defined *)
  addAlive : bool                (* addIntellisense$ has not completed *)
}.

Definition with_state (s : State) (t : Session) : Session :=
  {| session_state := s; monacoDefined := monacoDefined t; addAlive := addAlive t |}.

(** [_determineSource] with the global that it reads. *)
Definition _determineSource_global (monacoDefined : bool) (language : string)
  : Result Source :=
  if monacoDefined then Ok (_determineSource language)
  else Throw MonacoNotDefined.

(** [addIntellisense$] on one [AddIntellisenseAction]. *)
Definition addIntellisense (url language : string) (t : Session) : Session :=
  if addAlive t then
    match _determineSource_global (monacoDefined t) language with
    | Ok source =>
        with_state
          (with_waiting
             (waiting (session_state t)
              ++ [{| waiting_url := url; waiting_source := source |}])
             (session_state t))
          t
    | Throw exception =>
        {| session_state :=
             emit (ReportErrorAction intellisenseClearError exception)
               (with_inflight [] (with_waiting [] (session_state t)));
           monacoDefined := monacoDefined t;
           addAlive := false |}
    end
  else t.

(** What happens to a session: the loader defines the global [monaco], or
    one of the inputs above. *)
Inductive Occurrence : Type :=
| MonacoLoaded
| Happens (input : Input).

Section Session.

Variable origin : string.
Variable getVersionedPackageUrl : string → string → string → string.

(** The [mergeMap] of [updateIntellisense$], with [addIntellisense$] taking
    up each action as it is. *)
Definition session_mergeMap (files : list string) (language : string)
    (t : Session) : Session :=
  foldl (λ t file,
           addIntellisense file language
             (with_state (emit (AddIntellisenseAction file language)
                            (session_state t)) t))
        t files.

Definition session_updateIntellisense (payload : Payload) (t : Session)
  : Session :=
  if updateAlive (session_state t) then
    match updateIntellisense_map origin getVersionedPackageUrl payload
            (session_state t) with
    | (s, Ok (files, language)) => session_mergeMap files language (with_state s t)
    | (s, Throw exception) =>
        with_state
          (with_alive false
             (emit (ReportErrorAction intellisenseUpdateError exception) s))
          t
    end
  else t.

(** The promise [MonacoService.current] calls back only once the editor is
    loaded, and nothing of [addIntellisense$] runs once it has completed. *)
Definition session_step (t : Session) (event : Occurrence) : Session :=
  match event with
  | MonacoLoaded =>
      {| session_state := session_state t; monacoDefined := true;
         addAlive := addAlive t |}
  | Happens (Dispatch payload) => session_updateIntellisense payload t
  | Happens (MonacoReady adapterReturns) =>
      if addAlive t && monacoDefined t
      then with_state (monacoReady adapterReturns (session_state t)) t
      else t
  | Happens (Response i result adapterReturns) =>
      if addAlive t
      then with_state (response i result adapterReturns (session_state t)) t
      else t
  end.

Definition session_run (t : Session) (events : list Occurrence) : Session :=
  foldl session_step t events.

End Session.

(** A session that has just begun, with the editor loaded or not. *)
Definition session_initial (cache : gmap string string) (loaded : bool)
  : Session :=
  {| session_state := initial cache; monacoDefined := loaded; addAlive := true |}.

Definition Message_eqb (a b : Message) : bool :=
  match a, b with
  | intellisenseUpdateError, intellisenseUpdateError => true
  | intellisenseClearError, intellisenseClearError => true
  | intellisenseLoadError, intellisenseLoadError => true
  | _, _ => false
  end.

(** The reports with a given message among the actions emitted. *)
Definition reportsOf (message : Message) (actions : list Action) : list Action :=
  List.filter
    (λ a, match a with
          | ReportErrorAction m _ => Message_eqb message m
          | _ => false
          end)
    actions.

(** Nothing has been asked of the editor or the network. *)
Definition quiet (s : State) : Prop :=
  waiting s = [] ∧ inflight s = [] ∧ _current s = [] ∧ calls s = []
  ∧ List.filter isSuccess (dispatched s) = [].

(** While [addIntellisense$] is alive its adds are accounted for; where the
    editor is not loaded or the effect has completed, nothing was done. *)
Definition answering (t : Session) : Prop :=
  wellFormed (session_state t)
  ∧ (addAlive t = true → balanced (session_state t))
  ∧ (monacoDefined t = false ∨ addAlive t = false → quiet (session_state t)).

(** Each effect has reported at most once, the report that ended it. *)
Definition reporting (t : Session) : Prop :=
  reportsOf intellisenseUpdateError (dispatched (session_state t))
  = (if updateAlive (session_state t) then []
     else [ReportErrorAction intellisenseUpdateError InvalidTabName])
  ∧ reportsOf intellisenseClearError (dispatched (session_state t))
    = (if addAlive t then []
       else [ReportErrorAction intellisenseClearError MonacoNotDefined])
  ∧ reportsOf intellisenseLoadError (dispatched (session_state t)) = [].

(** * Properties *)

(** ** The resolver on sample references *)

Example parse_samples :
  _parse [" @types/jquery "; "dt~lodash"; "dt~a~dt~b"; "dt~"; "core-js/client/core.min.js";
          "jquery/dist/jquery.D.TS"; "HTTPS://x.y/office.d.ts"; "@types/office-js"]
         "script"
  = [Some "https://unpkg.com/@types/jquery/index.d.ts";
     Some "https://raw.githubusercontent.com/DefinitelyTyped/DefinitelyTyped/master/types/lodash/index.d.ts";
     Some "https://raw.githubusercontent.com/DefinitelyTyped/DefinitelyTyped/master/types/a~/index.d.ts";
     Some "https://raw.githubusercontent.com/DefinitelyTyped/DefinitelyTyped/master/types//index.d.ts";
     None;
     Some "https://unpkg.com/jquery/dist/jquery.D.TS";
     Some "HTTPS://x.y/office.d.ts";
     Some "https://unpkg.com/@types/office-js/index.d.ts"].
Proof. reflexivity. Qed.

Example parse_samples_cf :
  _parse ["@types/office-js-preview"; "dt~office-js"; "a/Office.d.ts"; "a/officeXdYts";
          "a/b.d.ts"]
         "customFunctions"
  = [None;
     Some "https://raw.githubusercontent.com/DefinitelyTyped/DefinitelyTyped/master/types/office-js/index.d.ts";
     None; None;
     Some "https://unpkg.com/a/b.d.ts"].
Proof. reflexivity. Qed.

(** ** Strings *)

Lemma prefix_inv (p s : string) :
  String.prefix p s = true → ∃ r, s = p +:+ r.
Proof.
  revert s. induction p as [|a p IH]; intros s H.
  - by exists s.
  - destruct s as [|b s]; simpl in H; [discriminate|].
    destruct (ascii_dec a b) as [->|]; [|discriminate].
    destruct (IH s H) as [r ->]. by exists r.
Qed.

Lemma prefix_app (p r : string) : String.prefix p (p +:+ r) = true.
Proof.
  induction p as [|a p IH]; simpl; [by destruct r|].
  destruct (ascii_dec a a); [done|congruence].
Qed.

Lemma testAtStart_lits (p s : string) :
  JS.testAtStart false (JS.lits p) s = String.prefix p s.
Proof.
  unfold JS.testAtStart, JS.lits. revert s.
  induction p as [|a p IH]; intros s; simpl; [by destruct s|].
  destruct s as [|b s]; [done|]. simpl. rewrite IH.
  destruct (ascii_dec a b) as [->|Hne].
  - by rewrite Ascii.eqb_refl.
  - apply Ascii.eqb_neq in Hne. by rewrite Hne.
Qed.

(** ** The reference resolver *)

(** C6. For every reference that, trimmed as [_parse] trims it, starts with
    [@types]: on the surface [script] the resolver answers
    [https://unpkg.com/<reference>/index.d.ts], and on the surface
    [customFunctions] it answers null exactly when the reference starts with
    [@types/office-js], and the same address otherwise. *)
Theorem C6_scoped_types_package (reference : string) :
  JS.startsWith (JS.trim reference) "@types" = true →
  _parse_library "script" reference
    = Some ("https://unpkg.com/" +:+ JS.trim reference +:+ "/index.d.ts")
  ∧ (_parse_library "customFunctions" reference = None
     ↔ JS.startsWith (JS.trim reference) "@types/office-js" = true)
  ∧ (JS.startsWith (JS.trim reference) "@types/office-js" = false →
     _parse_library "customFunctions" reference
       = Some ("https://unpkg.com/" +:+ JS.trim reference +:+ "/index.d.ts")).
Proof.
  intros H. unfold _parse_library.
  rewrite testAtStart_lits. unfold JS.startsWith in *. rewrite H. simpl.
  split; [done|].
  destruct (String.prefix "@types/office-js" (JS.trim reference));
    (split; [split; intros; first [done | discriminate] | done]).
Qed.

Lemma C6_scoped_types_package_witness :
  _parse_library "script" " @types/jquery"
    = Some "https://unpkg.com/@types/jquery/index.d.ts"
  ∧ _parse_library "customFunctions" " @types/jquery"
    = Some "https://unpkg.com/@types/jquery/index.d.ts".
Proof.
  destruct (C6_scoped_types_package " @types/jquery" eq_refl) as (Hs & _ & Hc).
  split; [exact Hs | apply Hc; reflexivity].
Defined.

(** A reference in the registry shorthand resolves to an address on every
    surface: the comparison with [office-js] is made on the whole reference,
    which starts with [dt~]. *)
Lemma parse_registry_shorthand (tabName reference : string) :
  JS.startsWith (JS.trim reference) "dt~" = true →
  _parse_library tabName reference
  = Some ("https://raw.githubusercontent.com/DefinitelyTyped/DefinitelyTyped/master/types/"
          +:+ JS.index (JS.split (JS.trim reference) "dt~") 1 +:+ "/index.d.ts").
Proof.
  intros H. unfold _parse_library.
  rewrite !testAtStart_lits. unfold JS.startsWith in H. rewrite H.
  destruct (prefix_inv _ _ H) as [r Hr]. rewrite Hr. simpl.
  by rewrite andb_false_r.
Qed.

Lemma rev_app_rev_app (s a b : string) :
  String.rev_app (String.rev_app s a) b = String.rev_app a (s +:+ b).
Proof.
  revert a b. induction s as [|c s IH]; intros a b; simpl; [done|].
  by rewrite IH.
Qed.

Lemma append_cons (c : ascii) (s r : string) :
  String c s +:+ r = String c (s +:+ r).
Proof. reflexivity. Qed.

Lemma append_empty_r (s : string) : s +:+ "" = s.
Proof. induction s as [|c s IH]; [done|]. by rewrite append_cons, IH. Qed.

Lemma rev_rev (s : string) : String.rev (String.rev s) = s.
Proof.
  unfold String.rev. rewrite rev_app_rev_app. simpl. apply append_empty_r.
Qed.

(** A name without [dt~] inside is one piece for [split]. *)
Lemma splitFrom_no_separator (name acc : string) :
  (∀ a b, name ≠ a +:+ "dt~" +:+ b) →
  JS.splitFrom "dt~" 0 acc name = [String.rev (String.rev_app name acc)].
Proof.
  revert acc. induction name as [|c name IH]; intros acc Hno; [done|].
  change (JS.splitFrom "dt~" 0 acc (String c name)) with
    (if String.prefix "dt~" (String c name)
     then String.rev acc :: JS.splitFrom "dt~" 2 "" name
     else JS.splitFrom "dt~" 0 (String c acc) name).
  destruct (String.prefix "dt~" (String c name)) eqn:Hp.
  - destruct (prefix_inv _ _ Hp) as [r Hr]. exfalso. by apply (Hno "" r).
  - rewrite IH; [done|]. intros a b Hab. apply (Hno (String c a) b).
    simpl. by rewrite Hab.
Qed.

(** On every surface, [dt~<name>] resolves to the declaration index of
    [<name>] in the DefinitelyTyped repository. *)
Lemma parse_registry_shorthand_name (tabName name : string) :
  (∀ a b, name ≠ a +:+ "dt~" +:+ b) →
  JS.trim ("dt~" +:+ name) = "dt~" +:+ name →
  _parse_library tabName ("dt~" +:+ name)
  = Some ("https://raw.githubusercontent.com/DefinitelyTyped/DefinitelyTyped/master/types/"
          +:+ name +:+ "/index.d.ts").
Proof.
  intros Hno Htrim. rewrite parse_registry_shorthand.
  - rewrite Htrim. unfold JS.split.
    change (JS.splitFrom "dt~" 0 "" ("dt~" +:+ name))
      with (if String.prefix "dt~" ("dt~" +:+ name)
            then String.rev "" :: JS.splitFrom "dt~" 0 "" name
            else JS.splitFrom "dt~" 0 "d" ("t~" +:+ name)).
    rewrite prefix_app, splitFrom_no_separator by done.
    unfold JS.index. simpl.
    change (String.rev_app name "") with (String.rev name). by rewrite rev_rev.
  - rewrite Htrim. apply prefix_app.
Qed.

(** C2. On the surface [customFunctions] the reference [dt~office-js] is
    not suppressed: the resolver answers the address of its declaration
    index, where the claim has null. *)
Theorem C2_registry_shorthand_office_js_not_suppressed :
  _parse_library "customFunctions" "dt~office-js"
  = Some "https://raw.githubusercontent.com/DefinitelyTyped/DefinitelyTyped/master/types/office-js/index.d.ts"
  ∧ _parse_library "customFunctions" "dt~office-js" ≠ None
  ∧ _parse_library "customFunctions" "@types/office-js" = None.
Proof. split; [reflexivity|]. split; [discriminate|reflexivity]. Qed.

(** ** Adapter selection *)

(** C10. [_determineSource] answers for every language: [javascript]
    selects [javascriptDefaults] and every other string selects
    [typescriptDefaults]. *)
Theorem C10_determineSource_total (language : string) :
  language ≠ "javascript" →
  _determineSource "javascript" = javascriptDefaults
  ∧ _determineSource language = typescriptDefaults.
Proof.
  intros Hne. split; [reflexivity|].
  unfold _determineSource.
  destruct (String.eqb language "javascript") eqn:E; [|done].
  by apply String.eqb_eq in E.
Qed.

Lemma C10_determineSource_total_witness :
  _determineSource "javascript" = javascriptDefaults
  ∧ _determineSource "coffeescript" = typescriptDefaults.
Proof. apply (C10_determineSource_total "coffeescript"). discriminate. Defined.

(** ** What one add leaves behind *)

Lemma settle_cache b src got s :
  intellisenseCache (_addIntellisense_settle b src got s) = intellisenseCache s.
Proof.
  unfold _addIntellisense_settle, _addIntellisense_map.
  destruct got as [file|e]; [|done].
  destruct b; [|done]. by destruct (Dictionary.add _ _ _).
Qed.

Lemma settle_waiting b src got s :
  waiting (_addIntellisense_settle b src got s) = waiting s.
Proof.
  unfold _addIntellisense_settle, _addIntellisense_map.
  destruct got as [file|e]; [|done].
  destruct b; [|done]. by destruct (Dictionary.add _ _ _).
Qed.

Lemma settle_inflight b src got s :
  inflight (_addIntellisense_settle b src got s) = inflight s.
Proof.
  unfold _addIntellisense_settle, _addIntellisense_map.
  destruct got as [file|e]; [|done].
  destruct b; [|done]. by destruct (Dictionary.add _ _ _).
Qed.

Lemma settle_alive b src got s :
  updateAlive (_addIntellisense_settle b src got s) = updateAlive s.
Proof.
  unfold _addIntellisense_settle, _addIntellisense_map.
  destruct got as [file|e]; [|done].
  destruct b; [|done]. by destruct (Dictionary.add _ _ _).
Qed.

(** Whatever happened to the add, [addIntellisense$] emits the same action. *)
Lemma settle_dispatched b src got s :
  dispatched (_addIntellisense_settle b src got s)
  = dispatched s ++ [UpdateIntellisenseSuccessAction].
Proof.
  unfold _addIntellisense_settle, _addIntellisense_map.
  destruct got as [file|e]; [|done].
  destruct b; [|done]. by destruct (Dictionary.add _ _ _).
Qed.

Lemma settle_calls_ok b src file s :
  calls (_addIntellisense_settle b src (Ok file) s)
  = calls s ++ [TrackEvent (file_url file);
                AddExtraLib src (file_content file) (file_url file)
                  (if b then Some (nextHandle s) else None)].
Proof.
  unfold _addIntellisense_settle, _addIntellisense_map.
  destruct b; simpl.
  - destruct (Dictionary.add _ _ _); simpl; by rewrite <- app_assoc.
  - by rewrite <- app_assoc.
Qed.

Lemma settle_throw b src e s :
  _addIntellisense_settle b src (Throw e) s
  = emit UpdateIntellisenseSuccessAction s.
Proof. reflexivity. Qed.

Lemma settle_current_new src file s :
  Dictionary.contains (file_url file) (_current s) = false →
  _current (_addIntellisense_settle true src (Ok file) s)
  = Dictionary.insert (file_url file)
      {| disposable_url := file_url file; disposable := nextHandle s |}
      (_current s).
Proof.
  intros H. unfold _addIntellisense_settle, _addIntellisense_map, Dictionary.add.
  simpl. by rewrite H.
Qed.

Lemma settle_current_present b src file s :
  Dictionary.contains (file_url file) (_current s) = true →
  _current (_addIntellisense_settle b src (Ok file) s) = _current s.
Proof.
  intros H. unfold _addIntellisense_settle, _addIntellisense_map, Dictionary.add.
  destruct b; [|done]. simpl. by rewrite H.
Qed.

Lemma settle_current_adapter_throws src file s :
  _current (_addIntellisense_settle false src (Ok file) s) = _current s.
Proof. reflexivity. Qed.

(** A request that fails leaves the registrations, the cache, the calls and
    every other add as they were. *)
Lemma response_failure_isolated (s : State) (i : nat) (w : Waiting)
    (e : Exception) (b : bool) :
  inflight s !! i = Some w →
  response i (Throw e) b s
  = emit UpdateIntellisenseSuccessAction (with_inflight (delete i (inflight s)) s).
Proof. intros H. unfold response. by rewrite H. Qed.

(** ** What one [UPDATE_INTELLISENSE] leaves behind *)

Section UpdateFacts.

Variable origin : string.
Variable getVersionedPackageUrl : string → string → string → string.

Lemma disposeUnused_cache unused s :
  intellisenseCache (disposeUnused unused s).1 = intellisenseCache s.
Proof.
  revert s. induction unused as [|f unused IH]; intros s; simpl; [done|].
  destruct (Dictionary.remove _ _); [|done]. by rewrite IH.
Qed.

Lemma disposeUnused_rest unused s :
  let s' := (disposeUnused unused s).1 in
  waiting s' = waiting s ∧ inflight s' = inflight s
  ∧ updateAlive s' = updateAlive s ∧ dispatched s' = dispatched s
  ∧ nextHandle s' = nextHandle s.
Proof.
  revert s. induction unused as [|f unused IH]; intros s; simpl; [done|].
  destruct (Dictionary.remove _ _) as [d|]; [|done].
  apply (IH (with_current d (call (Dispose (disposable f)) s))).
Qed.

Lemma mergeMap_cache files language s :
  intellisenseCache (updateIntellisense_mergeMap files language s)
  = intellisenseCache s.
Proof.
  unfold updateIntellisense_mergeMap. revert s.
  induction files as [|f files IH]; intros s; simpl; [done|]. by rewrite IH.
Qed.

Lemma mergeMap_facts files language s :
  let s' := updateIntellisense_mergeMap files language s in
  _current s' = _current s ∧ calls s' = calls s ∧ inflight s' = inflight s
  ∧ updateAlive s' = updateAlive s ∧ nextHandle s' = nextHandle s
  ∧ waiting s'
    = waiting s
      ++ ((λ file, {| waiting_url := file;
                      waiting_source := _determineSource language |}) <$> files)
  ∧ dispatched s'
    = dispatched s ++ ((λ file, AddIntellisenseAction file language) <$> files).
Proof.
  unfold updateIntellisense_mergeMap. revert s.
  induction files as [|f files IH]; intros s; simpl.
  - by rewrite !app_nil_r.
  - destruct (IH (_addIntellisense f language
                    (emit (AddIntellisenseAction f language) s)))
      as (-> & -> & -> & -> & -> & -> & ->).
    simpl. by rewrite <- !app_assoc.
Qed.

Lemma updateIntellisense_cache payload s :
  intellisenseCache (updateIntellisense origin getVersionedPackageUrl payload s)
  = intellisenseCache s.
Proof.
  unfold updateIntellisense, updateIntellisense_map.
  destruct (updateAlive s); [|done].
  destruct (additionalLibraries _ _ _) as [additional|e]; [|done].
  match goal with
  | |- context [disposeUnused ?u s] =>
      pose proof (disposeUnused_cache u s) as Hc;
      destruct (disposeUnused u s) as [s' [e|]]
  end; simpl in *; [done|].
  by rewrite mergeMap_cache.
Qed.

(** ** The content cache *)

Lemma step_cache_is_Some s input url :
  is_Some (intellisenseCache s !! url) →
  is_Some (intellisenseCache (step origin getVersionedPackageUrl s input) !! url).
Proof.
  intros H. destruct input as [payload|b|i result b]; simpl.
  - by rewrite updateIntellisense_cache.
  - unfold monacoReady. destruct (waiting s) as [|w rest]; [done|].
    unfold _get. simpl. case_bool_decide.
    + by rewrite settle_cache.
    + done.
  - unfold response. destruct (inflight s !! i) as [w|]; [|done].
    destruct result as [content|e].
    + simpl. rewrite settle_cache. simpl.
      destruct (decide (waiting_url w = url)) as [->|Hne].
      * rewrite lookup_insert_eq. by eexists.
      * by rewrite lookup_insert_ne.
    + by rewrite settle_cache.
Qed.

Lemma run_cache_is_Some s inputs url :
  is_Some (intellisenseCache s !! url) →
  is_Some (intellisenseCache (run origin getVersionedPackageUrl s inputs) !! url).
Proof.
  unfold run. revert s. induction inputs as [|input inputs IH]; intros s H; [done|].
  simpl. apply IH. by apply step_cache_is_Some.
Qed.

(** C8. Once a locator's content is in the cache, it stays there through
    every later reconciliation pass, response and add, and [_get] for it
    returns the stored content at once, leaving the whole state as it was:
    no request is sent and the cache is not written. *)
Theorem C8_cache_reuse (s : State) (url content : string) (inputs : list Input) :
  intellisenseCache s !! url = Some content →
  let s' := run origin getVersionedPackageUrl s inputs in
  ∃ stored,
    intellisenseCache s' !! url = Some stored
    ∧ _get url s' = (s', Now {| file_url := url; file_content := stored |})
    ∧ fetches (calls (_get url s').1) = fetches (calls s')
    ∧ intellisenseCache (_get url s').1 = intellisenseCache s'.
Proof.
  intros H s'.
  destruct (run_cache_is_Some s inputs url) as [stored Hs]; [by eexists|].
  fold s' in Hs. exists stored.
  assert (_get url s' = (s', Now {| file_url := url; file_content := stored |})) as Hg.
  { unfold _get. rewrite bool_decide_eq_true_2 by (by eexists). by rewrite Hs. }
  by rewrite Hg.
Qed.

(** ** The call boundary *)

Lemma additionalLibraries_invalid tabName :
  tabName ≠ "script" → tabName ≠ "customFunctions" →
  additionalLibraries origin getVersionedPackageUrl tabName = Throw InvalidTabName.
Proof.
  intros H1 H2. unfold additionalLibraries.
  destruct (String.eqb tabName "script") eqn:E1;
    [by apply String.eqb_eq in E1|].
  destruct (String.eqb tabName "customFunctions") eqn:E2;
    [by apply String.eqb_eq in E2|].
  done.
Qed.

(** C7. A payload whose tab name is neither [script] nor [customFunctions]
    is rejected at once: the stream reports one [intellisenseUpdateError]
    carrying the exception and does nothing else, so no request is sent, no
    registration is disposed of or made, the cache and the active
    registrations are untouched and no add is started. *)
Theorem C7_invalid_surface_rejected (s : State) (payload : Payload) :
  tabName payload ≠ "script" →
  tabName payload ≠ "customFunctions" →
  let s' := step origin getVersionedPackageUrl s (Dispatch payload) in
  s' = (if updateAlive s
        then with_alive false
               (emit (ReportErrorAction intellisenseUpdateError InvalidTabName) s)
        else s)
  ∧ calls s' = calls s
  ∧ intellisenseCache s' = intellisenseCache s
  ∧ _current s' = _current s
  ∧ waiting s' = waiting s
  ∧ inflight s' = inflight s
  ∧ (updateAlive s = true →
     dispatched s'
     = dispatched s ++ [ReportErrorAction intellisenseUpdateError InvalidTabName]).
Proof.
  intros H1 H2 s'.
  assert (s' = if updateAlive s
               then with_alive false
                      (emit (ReportErrorAction intellisenseUpdateError InvalidTabName) s)
               else s) as Hs'.
  { unfold s', step, updateIntellisense, updateIntellisense_map.
    by rewrite additionalLibraries_invalid. }
  split; [exact Hs'|]. rewrite Hs'.
  destruct (updateAlive s); repeat split; try done.
Qed.

End UpdateFacts.

(** ** The content cache, one request at a time *)

(** C5. For a locator that is not in the cache, [_get] sends a request and
    stores nothing yet. When the content arrives it is stored under the
    locator before the file is passed on to be registered. When the request
    fails, the exception reaches the [catch] of the caller, nothing is stored
    and nothing is registered, so the next [_get] for the locator sends a
    request again. *)
Theorem C5_cache_not_poisoned (s : State) (w : Waiting) (rest : list Waiting)
    (b : bool) :
  waiting s = w :: rest →
  intellisenseCache s !! waiting_url w = None →
  let url := waiting_url w in
  let s1 := monacoReady b s in
  _get url s = (call (RequestGet url) s, Later)
  ∧ calls s1 = calls s ++ [RequestGet url]
  ∧ inflight s1 = inflight s ++ [w]
  ∧ intellisenseCache s1 = intellisenseCache s
  ∧ (∀ content b',
       let s2 := response (length (inflight s)) (Ok content) b' s1 in
       intellisenseCache (_get_next url content s1).1 !! url = Some content
       ∧ (_get_next url content s1).2 = {| file_url := url; file_content := content |}
       ∧ intellisenseCache s2 !! url = Some content
       ∧ calls s2
         = calls s1 ++ [TrackEvent url;
                        AddExtraLib (waiting_source w) content url
                          (if b' then Some (nextHandle s) else None)])
  ∧ (∀ e b',
       let s2 := response (length (inflight s)) (Throw e) b' s1 in
       s2 = emit (addIntellisense_map
                    (_addIntellisense_catch (Throw e)))
                 (with_inflight (inflight s) s1)
       ∧ _addIntellisense_catch (Throw e)
         = Reported (ReportErrorAction intellisenseLoadError e)
       ∧ intellisenseCache s2 !! url = None
       ∧ calls s2 = calls s1
       ∧ _current s2 = _current s
       ∧ _get url s2 = (call (RequestGet url) s2, Later)).
Proof.
  intros Hw Hc url s1.
  assert (_get url s = (call (RequestGet url) s, Later)) as Hget.
  { unfold _get. rewrite bool_decide_eq_false_2; [done|].
    fold url in Hc. rewrite Hc. by intros [? ?]. }
  assert (s1 = with_inflight (inflight s ++ [w])
                 (call (RequestGet url) (with_waiting rest s))) as Hs1.
  { unfold s1, monacoReady. rewrite Hw. unfold _get. simpl.
    rewrite bool_decide_eq_false_2; [done|]. rewrite Hc. by intros [? ?]. }
  split; [done|]. rewrite Hs1. simpl.
  split; [done|]. split; [done|]. split; [done|].
  split.
  - intros content b'. unfold response. simpl.
    rewrite list_lookup_middle by done. simpl.
    rewrite settle_cache, settle_calls_ok. simpl. subst url.
    by rewrite lookup_insert_eq.
  - intros e b'. unfold response. simpl.
    rewrite list_lookup_middle by done.
    replace (delete (length (inflight s)) (inflight s ++ [w])) with (inflight s)
      by (by rewrite delete_middle, app_nil_r).
    rewrite settle_throw. simpl. repeat split; try done.
    unfold _get. simpl. rewrite bool_decide_eq_false_2; [done|].
    subst url. rewrite Hc. by intros [? ?].
Qed.

(** ** The dictionary of active registrations *)

Lemma contains_false {A} (key : string) (d : Dictionary.t A) :
  Dictionary.contains key d = false ↔ key ∉ Dictionary.keys d.
Proof.
  unfold Dictionary.contains, Dictionary.keys.
  induction d as [|[k v] d IH]; simpl.
  - split; [intros _; apply not_elem_of_nil|done].
  - destruct (String.eqb key k) eqn:E.
    + apply String.eqb_eq in E as ->. split; [done|].
      intros H. exfalso. apply H. apply elem_of_cons. by left.
    + apply String.eqb_neq in E. rewrite IH, not_elem_of_cons. tauto.
Qed.

Lemma insert_absent {A} (key : string) (value : A) (d : Dictionary.t A) :
  Dictionary.contains key d = false →
  Dictionary.insert key value d = d ++ [(key, value)].
Proof.
  unfold Dictionary.contains.
  induction d as [|[k v] d IH]; simpl; [done|].
  destruct (String.eqb key k); [done|]. intros H. by rewrite IH.
Qed.

Lemma keys_app {A} (d1 d2 : Dictionary.t A) :
  Dictionary.keys (d1 ++ d2) = Dictionary.keys d1 ++ Dictionary.keys d2.
Proof. unfold Dictionary.keys. apply fmap_app. Qed.

Lemma keyed_snoc d url handle :
  keyed d → keyed (d ++ [(url, {| disposable_url := url; disposable := handle |})]).
Proof.
  intros Hk k f Hin. apply elem_of_app in Hin as [Hin|Hin]; [by apply Hk|].
  apply list_elem_of_singleton in Hin. by inversion Hin.
Qed.

Lemma keyed_tail k f d : keyed ((k, f) :: d) → keyed d.
Proof. intros Hk k' f' Hin. apply Hk. apply elem_of_cons. by right. Qed.

(** A registration that succeeds on a fresh locator appends one entry. *)
Lemma settle_registers src file s :
  Dictionary.contains (file_url file) (_current s) = false →
  let s' := _addIntellisense_settle true src (Ok file) s in
  _current s'
  = _current s ++ [(file_url file,
                    {| disposable_url := file_url file; disposable := nextHandle s |})]
  ∧ nextHandle s' = S (nextHandle s).
Proof.
  intros H s'. unfold s'. rewrite settle_current_new by done.
  rewrite insert_absent by done. split; [done|].
  unfold _addIntellisense_settle, _addIntellisense_map, Dictionary.add.
  simpl. by rewrite H.
Qed.

Lemma registers_app es1 es2 : registers (es1 ++ es2) = registers es1 ++ registers es2.
Proof. apply omap_app. Qed.

Lemma disposes_app es1 es2 : disposes (es1 ++ es2) = disposes es1 ++ disposes es2.
Proof. apply omap_app. Qed.

Lemma fetches_app es1 es2 : fetches (es1 ++ es2) = fetches es1 ++ fetches es2.
Proof. apply omap_app. Qed.

Lemma registers_disposals (l : list IDisposableFile) :
  registers ((λ f, Dispose (disposable f)) <$> l) = [].
Proof. induction l as [|f l IH]; [done|]. simpl. exact IH. Qed.

Lemma fetches_disposals (l : list IDisposableFile) :
  fetches ((λ f, Dispose (disposable f)) <$> l) = [].
Proof. induction l as [|f l IH]; [done|]. simpl. exact IH. Qed.

Lemma disposes_disposals (l : list IDisposableFile) :
  disposes ((λ f, Dispose (disposable f)) <$> l) = disposable <$> l.
Proof. induction l as [|f l IH]; [done|]. simpl. f_equal. exact IH. Qed.

(** ** Disposal *)

(** When no active registration is desired any more, every one of them is
    disposed of and removed, in the order of [values]. *)
Lemma disposeUnused_all (s : State) :
  keyed (_current s) →
  let r := disposeUnused (Dictionary.values (_current s)) s in
  r.2 = None
  ∧ _current r.1 = []
  ∧ calls r.1
    = calls s ++ ((λ f, Dispose (disposable f)) <$> Dictionary.values (_current s)).
Proof.
  remember (_current s) as d eqn:Hd. revert s Hd.
  induction d as [|[k f] d IH]; intros s Hd Hk; simpl.
  - rewrite app_nil_r. by rewrite <- Hd.
  - unfold Dictionary.remove, Dictionary.contains. simpl. rewrite <- Hd. simpl.
    assert (disposable_url f = k) as -> by (apply Hk, elem_of_cons; by left).
    rewrite String.eqb_refl.
    destruct (IH (with_current d (call (Dispose (disposable f)) s)) eq_refl
                (keyed_tail _ _ _ Hk)) as (H1 & H2 & H3).
    split; [done|]. split; [done|]. rewrite H3. simpl. by rewrite <- app_assoc.
Qed.

Lemma filter_all_unused (D : list string) (d : Dictionary.t IDisposableFile) :
  keyed d →
  (∀ k, k ∈ Dictionary.keys d → k ∉ D) →
  List.filter (λ file, notIncluded D (disposable_url file)) (Dictionary.values d)
  = Dictionary.values d.
Proof.
  induction d as [|[k f] d IH]; intros Hk Hd; simpl; [done|].
  assert (disposable_url f = k) as -> by (apply Hk, elem_of_cons; by left).
  unfold notIncluded at 1. rewrite bool_decide_eq_false_2.
  - simpl. f_equal. apply IH; [by eapply keyed_tail|].
    intros k' Hin. apply Hd. simpl. apply elem_of_cons. by right.
  - apply Hd. simpl. apply elem_of_cons. by left.
Qed.

Lemma filter_none_unused (D : list string) (d : Dictionary.t IDisposableFile) :
  keyed d →
  (∀ k, k ∈ Dictionary.keys d → k ∈ D) →
  List.filter (λ file, notIncluded D (disposable_url file)) (Dictionary.values d)
  = [].
Proof.
  induction d as [|[k f] d IH]; intros Hk Hd; simpl; [done|].
  assert (disposable_url f = k) as -> by (apply Hk, elem_of_cons; by left).
  unfold notIncluded at 1. rewrite bool_decide_eq_true_2.
  - simpl. apply IH; [by eapply keyed_tail|].
    intros k' Hin. apply Hd. simpl. apply elem_of_cons. by right.
  - apply Hd. simpl. apply elem_of_cons. by left.
Qed.

(** ** One pass that replaces every registration *)

Lemma adding_fresh D r0 d0 s url :
  adding D r0 d0 s →
  url ∈ (waiting_url <$> waiting s) ++ (waiting_url <$> inflight s) →
  Dictionary.contains url (_current s) = false.
Proof.
  intros [_ Hnd _ _ _] Hin. apply contains_false. intros Hk.
  unfold accounted in Hnd. apply NoDup_app in Hnd as (_ & Hnd & _).
  by apply (Hnd url).
Qed.

(** A registration that succeeds moves its locator to the registrations. *)
Lemma adding_registered D r0 d0 s s0 src file :
  adding D r0 d0 s0 →
  _current s = _current s0 →
  calls s = calls s0 →
  Dictionary.contains (file_url file) (_current s0) = false →
  accounted s0
    ≡ₚ (Dictionary.keys (_current s0) ++ [file_url file])
       ++ (waiting_url <$> waiting s) ++ (waiting_url <$> inflight s) →
  adding D r0 d0 (_addIntellisense_settle true src (Ok file) s).
Proof.
  intros [Hk Hnd Hp Hr Hd] Hcur Hcalls Hc Hacc.
  rewrite <- Hcur in Hc.
  destruct (settle_registers src file s Hc) as [Hcur' _].
  assert (accounted (_addIntellisense_settle true src (Ok file) s) ≡ₚ accounted s0)
    as Hacc'.
  { rewrite Hacc. unfold accounted.
    by rewrite Hcur', settle_waiting, settle_inflight, keys_app, Hcur. }
  split.
  - rewrite Hcur', Hcur. by apply keyed_snoc.
  - by rewrite Hacc'.
  - by rewrite Hacc'.
  - rewrite settle_calls_ok, registers_app, Hcalls, Hr, Hcur', keys_app, Hcur.
    simpl. by rewrite app_assoc.
  - by rewrite settle_calls_ok, disposes_app, Hcalls, Hd, app_nil_r.
Qed.

Lemma adding_monacoReady D r0 d0 s :
  adding D r0 d0 s → adding D r0 d0 (monacoReady true s).
Proof.
  intros Hadd. unfold monacoReady.
  destruct (waiting s) as [|w rest] eqn:Hw; [done|].
  assert (Dictionary.contains (waiting_url w) (_current s) = false) as Hc.
  { apply (adding_fresh D r0 d0); [done|]. rewrite Hw. simpl.
    apply elem_of_cons. by left. }
  unfold _get. simpl. case_bool_decide.
  - apply (adding_registered D r0 d0 _ s); try done.
    unfold accounted. rewrite Hw. simpl. by rewrite <- app_assoc.
  - destruct Hadd as [Hk Hnd Hp Hr Hd].
    assert (accounted
              (with_inflight (inflight s ++ [w])
                 (call (RequestGet (waiting_url w)) (with_waiting rest s)))
            ≡ₚ accounted s) as Hacc.
    { unfold accounted. simpl. rewrite Hw, fmap_app. simpl.
      apply Permutation_app_head.
      rewrite (Permutation_app_comm (waiting_url <$> inflight s)). simpl.
      by rewrite Permutation_middle. }
    split; simpl.
    + done.
    + by rewrite Hacc.
    + by rewrite Hacc.
    + by rewrite registers_app, Hr, app_nil_r.
    + by rewrite disposes_app, Hd, app_nil_r.
Qed.

Lemma adding_response D r0 d0 s i content :
  adding D r0 d0 s → adding D r0 d0 (response i (Ok content) true s).
Proof.
  intros Hadd. unfold response.
  destruct (inflight s !! i) as [w|] eqn:Hi; [|done].
  assert (Dictionary.contains (waiting_url w) (_current s) = false) as Hc.
  { apply (adding_fresh D r0 d0); [done|]. apply elem_of_app. right.
    apply list_elem_of_fmap. exists w. split; [done|].
    by eapply list_elem_of_lookup_2. }
  simpl.
  apply (adding_registered D r0 d0 _ s); try done.
  unfold accounted. simpl.
  rewrite <- app_assoc. apply Permutation_app_head.
  rewrite (Permutation_app_comm [waiting_url w]). rewrite <- app_assoc.
  apply Permutation_app_head. simpl.
  rewrite (delete_Permutation (inflight s) i w Hi) at 1. simpl.
  apply Permutation_cons_append.
Qed.

(** ** A pass whose payload repeats a locator *)

(** Membership in a list put together with [++] and [::]. *)
Ltac membership :=
  repeat first
    [ rewrite elem_of_app | rewrite elem_of_cons | rewrite elem_of_nil
    | rewrite fmap_app | rewrite fmap_cons ];
  tauto.

Lemma reconciling_settle D d0 s s0 src file b :
  reconciling D d0 s0 →
  _current s = _current s0 →
  disposes (calls s) = disposes (calls s0) →
  (∀ url, url ∈ accounted s0
          ↔ url = file_url file ∨ url ∈ accounted s) →
  b = true →
  reconciling D d0 (_addIntellisense_settle b src (Ok file) s).
Proof.
  intros [Hk Hnd Hl Hd] Hcur Hdis Hacc ->.
  destruct (Dictionary.contains (file_url file) (_current s)) eqn:Hc.
  - assert (file_url file ∈ Dictionary.keys (_current s)) as Hin.
    { destruct (decide (file_url file ∈ Dictionary.keys (_current s))); [done|].
      apply contains_false in n. congruence. }
    split.
    + by rewrite settle_current_present, Hcur.
    + by rewrite settle_current_present, Hcur.
    + intros url. rewrite Hl, Hacc. unfold accounted.
      rewrite settle_current_present, settle_waiting, settle_inflight by done.
      rewrite !elem_of_app. split; [|tauto].
      intros [->|H]; [by left|done].
    + by rewrite settle_calls_ok, disposes_app, Hdis, Hd, app_nil_r.
  - destruct (settle_registers src file s Hc) as [Hcur' _].
    split.
    + rewrite Hcur', Hcur. by apply keyed_snoc.
    + rewrite Hcur', keys_app, Hcur. simpl. apply NoDup_app.
      split; [done|]. split; [|apply NoDup_singleton].
      intros url Hin Hin'. apply list_elem_of_singleton in Hin' as ->.
      apply contains_false in Hc. apply Hc. by rewrite Hcur.
    + intros url. rewrite Hl, Hacc. unfold accounted.
      rewrite Hcur', settle_waiting, settle_inflight, keys_app. simpl.
      membership.
    + by rewrite settle_calls_ok, disposes_app, Hdis, Hd, app_nil_r.
Qed.

Lemma reconciling_monacoReady D d0 s :
  reconciling D d0 s → reconciling D d0 (monacoReady true s).
Proof.
  intros Hrec. unfold monacoReady.
  destruct (waiting s) as [|w rest] eqn:Hw; [done|].
  unfold _get. simpl. case_bool_decide.
  - apply (reconciling_settle D d0 _ s); try done.
    intros url. unfold accounted. simpl. rewrite Hw. membership.
  - destruct Hrec as [Hk Hnd Hl Hd]. split; simpl; try done.
    + intros url. rewrite Hl. unfold accounted. simpl. rewrite Hw. membership.
    + by rewrite disposes_app, Hd, app_nil_r.
Qed.

Lemma reconciling_response D d0 s i content :
  reconciling D d0 s → reconciling D d0 (response i (Ok content) true s).
Proof.
  intros Hrec. unfold response.
  destruct (inflight s !! i) as [w|] eqn:Hi; [|done]. simpl.
  apply (reconciling_settle D d0 _ s); try done.
  intros url. unfold accounted. simpl.
  rewrite (delete_Permutation (inflight s) i w Hi) at 1. membership.
Qed.

Section Reconciliation.

Variable origin : string.
Variable getVersionedPackageUrl : string → string → string → string.

Lemma dispatch_replaces_all (s : State) (payload : Payload) (D : list string) :
  updateAlive s = true →
  keyed (_current s) →
  desiredLocators origin getVersionedPackageUrl payload = Ok D →
  (∀ k, k ∈ Dictionary.keys (_current s) → k ∉ D) →
  let s' := step origin getVersionedPackageUrl s (Dispatch payload) in
  _current s' = []
  ∧ calls s'
    = calls s ++ ((λ f, Dispose (disposable f)) <$> Dictionary.values (_current s))
  ∧ waiting s'
    = waiting s
      ++ ((λ file, {| waiting_url := file;
                      waiting_source := _determineSource (language payload) |}) <$> D)
  ∧ inflight s' = inflight s
  ∧ updateAlive s' = true
  ∧ dispatched s'
    = dispatched s ++ ((λ file, AddIntellisenseAction file (language payload)) <$> D).
Proof.
  intros Ha Hk HD Hdis s'. unfold s'. simpl.
  unfold updateIntellisense, updateIntellisense_map. rewrite Ha.
  unfold desiredLocators in HD.
  destruct (additionalLibraries _ _ _) as [additional|e]; [|done].
  injection HD as HD. rewrite HD.
  rewrite filter_all_unused by done.
  destruct (disposeUnused_all s Hk) as (H1 & H2 & H3).
  pose proof (disposeUnused_rest (Dictionary.values (_current s)) s)
    as (H4 & H5 & H6 & H7 & H8).
  destruct (disposeUnused (Dictionary.values (_current s)) s) as [s1 o].
  simpl in *. subst o.
  destruct (mergeMap_facts D (language payload) s1)
    as (-> & -> & -> & -> & _ & -> & ->).
  by rewrite H2, H3, H4, H5, H6, H7.
Qed.

Lemma adding_begins (s : State) (payload : Payload) (D : list string) :
  updateAlive s = true →
  keyed (_current s) →
  settled s →
  desiredLocators origin getVersionedPackageUrl payload = Ok D →
  NoDup D →
  (∀ k, k ∈ Dictionary.keys (_current s) → k ∉ D) →
  adding D (registers (calls s))
    (disposes (calls s) ++ (disposable <$> Dictionary.values (_current s)))
    (step origin getVersionedPackageUrl s (Dispatch payload)).
Proof.
  intros Ha Hk [Hw Hi] HD Hnd Hdis.
  destruct (dispatch_replaces_all s payload D Ha Hk HD Hdis)
    as (H1 & H2 & H3 & H4 & H5 & H6).
  assert (accounted (step origin getVersionedPackageUrl s (Dispatch payload)) = D) as Hacc.
  { unfold accounted. rewrite H1, H3, H4, Hw, Hi. simpl.
    rewrite app_nil_r, <- list_fmap_compose.
    rewrite <- (list_fmap_id D) at 2. by apply list_fmap_ext. }
  split.
  - rewrite H1. intros k f Hin. by apply elem_of_nil in Hin.
  - by rewrite Hacc.
  - by rewrite Hacc.
  - rewrite H1, H2, registers_app, registers_disposals. simpl.
    by rewrite !app_nil_r.
  - by rewrite H2, disposes_app, disposes_disposals.
Qed.

Lemma adding_step D r0 d0 s input :
  succeeds input = true →
  adding D r0 d0 s →
  adding D r0 d0 (step origin getVersionedPackageUrl s input).
Proof.
  intros Hs Hadd. destruct input as [payload|b|i [content|e] b]; simpl in *;
    try discriminate; subst b.
  - by apply adding_monacoReady.
  - by apply adding_response.
Qed.

Lemma adding_run D r0 d0 s inputs :
  forallb succeeds inputs = true →
  adding D r0 d0 s →
  adding D r0 d0 (run origin getVersionedPackageUrl s inputs).
Proof.
  unfold run. revert s.
  induction inputs as [|input inputs IH]; intros s Hs Hadd; [done|].
  simpl in *. apply andb_prop in Hs as [H1 H2].
  apply IH; [done|]. by apply adding_step.
Qed.

Lemma step_alive s input :
  succeeds input = true →
  updateAlive (step origin getVersionedPackageUrl s input) = updateAlive s.
Proof.
  intros Hs. destruct input as [payload|b|i [content|e] b]; simpl in *;
    try discriminate.
  - unfold monacoReady. destruct (waiting s) as [|w rest]; [done|].
    unfold _get. simpl. case_bool_decide; [|done]. by rewrite settle_alive.
  - unfold response. destruct (inflight s !! i); [|done]. simpl.
    by rewrite settle_alive.
Qed.

Lemma run_alive s inputs :
  forallb succeeds inputs = true →
  updateAlive (run origin getVersionedPackageUrl s inputs) = updateAlive s.
Proof.
  unfold run. revert s.
  induction inputs as [|input inputs IH]; intros s Hs; [done|].
  simpl in *. apply andb_prop in Hs as [H1 H2].
  rewrite IH by done. by apply step_alive.
Qed.

(** Once a pass has settled, the registrations are its locators. *)
Lemma adding_settled D r0 d0 s :
  adding D r0 d0 s →
  settled s →
  Dictionary.keys (_current s) ≡ₚ D
  ∧ NoDup (Dictionary.keys (_current s))
  ∧ registers (calls s) = r0 ++ Dictionary.keys (_current s)
  ∧ disposes (calls s) = d0.
Proof.
  intros [Hk Hnd Hp Hr Hd] [Hw Hi].
  unfold accounted in *. rewrite Hw, Hi in *. simpl in *.
  rewrite app_nil_r in *. done.
Qed.

(** The request for one locator of a pass fails: the other locators of
    the pass are registered once the pass settles, and the failed one is
    not. *)
Lemma failure_isolated D D' r0 d0 s i w e b inputs :
  adding D r0 d0 s →
  inflight s !! i = Some w →
  D ≡ₚ (waiting_url w :: D') →
  forallb succeeds inputs = true →
  let s' := run origin getVersionedPackageUrl (response i (Throw e) b s) inputs in
  settled s' →
  Dictionary.keys (_current s') ≡ₚ D'
  ∧ (waiting_url w ∉ Dictionary.keys (_current s'))
  ∧ registers (calls s') = r0 ++ Dictionary.keys (_current s').
Proof.
  intros [Hk Hnd Hp Hr Hd] Hi HD Hin s' Hs'.
  assert (accounted s
          ≡ₚ (waiting_url w :: accounted (response i (Throw e) b s))) as Hacc.
  { rewrite (response_failure_isolated s i w e b Hi). unfold accounted. simpl.
    rewrite (delete_Permutation (inflight s) i w Hi) at 1. simpl.
    by rewrite <- !Permutation_middle. }
  assert (adding D' r0 d0 (response i (Throw e) b s)) as Hadd.
  { rewrite Hacc in Hnd. apply NoDup_cons in Hnd as [_ Hnd].
    split; try done.
    - by rewrite (response_failure_isolated s i w e b Hi).
    - apply (Permutation_cons_inv (a := waiting_url w)).
      by rewrite <- Hacc, Hp.
    - by rewrite (response_failure_isolated s i w e b Hi).
    - by rewrite (response_failure_isolated s i w e b Hi). }
  apply (adding_run _ _ _ _ inputs Hin) in Hadd. fold s' in Hadd.
  destruct (adding_settled _ _ _ _ Hadd Hs') as (Hp' & _ & Hr' & _).
  split; [done|]. split; [|done].
  rewrite Hp'. rewrite Hacc in Hnd. apply NoDup_cons in Hnd as [Hnot _].
  intros Hin'. apply Hnot.
  assert ((waiting_url w :: accounted (response i (Throw e) b s))
          ≡ₚ (waiting_url w :: D')) as Hperm by (by rewrite <- Hacc, Hp).
  apply Permutation_cons_inv in Hperm. by rewrite Hperm.
Qed.


Lemma reconciling_run D d0 s inputs :
  forallb succeeds inputs = true →
  reconciling D d0 s →
  reconciling D d0 (run origin getVersionedPackageUrl s inputs).
Proof.
  unfold run. revert s.
  induction inputs as [|input inputs IH]; intros s Hs Hrec; [done|].
  simpl in *. apply andb_prop in Hs as [H1 H2].
  apply IH; [done|].
  destruct input as [payload|b|i [content|e] b]; simpl in *;
    try discriminate; subst b.
  - by apply reconciling_monacoReady.
  - by apply reconciling_response.
Qed.

Lemma reconciling_begins (s : State) (payload : Payload) (D : list string) :
  updateAlive s = true →
  keyed (_current s) →
  settled s →
  desiredLocators origin getVersionedPackageUrl payload = Ok D →
  (∀ k, k ∈ Dictionary.keys (_current s) → k ∉ D) →
  reconciling D
    (disposes (calls s) ++ (disposable <$> Dictionary.values (_current s)))
    (step origin getVersionedPackageUrl s (Dispatch payload)).
Proof.
  intros Ha Hk [Hw Hi] HD Hdis.
  destruct (dispatch_replaces_all s payload D Ha Hk HD Hdis)
    as (H1 & H2 & H3 & H4 & H5 & H6).
  split.
  - rewrite H1. intros k f Hin. by apply elem_of_nil in Hin.
  - rewrite H1. apply NoDup_nil_2.
  - intros url. unfold accounted. rewrite H1, H3, H4, Hw, Hi. simpl.
    rewrite app_nil_r, <- list_fmap_compose.
    replace ((_ ∘ _) <$> D) with D; [done|].
    rewrite <- (list_fmap_id D) at 1. by apply list_fmap_ext.
  - by rewrite H2, disposes_app, disposes_disposals.
Qed.

Lemma reconciling_settled D d0 s :
  reconciling D d0 s →
  settled s →
  (∀ url, url ∈ Dictionary.keys (_current s) ↔ url ∈ D)
  ∧ Dictionary.keys (_current s) ≡ₚ remove_dups D
  ∧ disposes (calls s) = d0.
Proof.
  intros [Hk Hnd Hl Hd] [Hw Hi].
  assert (∀ url, url ∈ Dictionary.keys (_current s) ↔ url ∈ D) as Hkeys.
  { intros url. rewrite Hl. unfold accounted. rewrite Hw, Hi. simpl.
    by rewrite app_nil_r. }
  split; [done|]. split; [|done].
  apply NoDup_Permutation; [done|apply NoDup_remove_dups|].
  intros url. by rewrite Hkeys, elem_of_remove_dups.
Qed.

(** Two passes over disjoint locators, when a payload may name a locator
    more than once: the second pass disposes of every registration of the
    first, and in the end there is one registration for each locator of the
    second and no other. *)
Lemma disjoint_reconciliation_repeated (s0 : State) (p1 p2 : Payload)
    (D1 D2 : list string) (inputs1 inputs2 : list Input) :
  updateAlive s0 = true →
  _current s0 = [] →
  settled s0 →
  desiredLocators origin getVersionedPackageUrl p1 = Ok D1 →
  desiredLocators origin getVersionedPackageUrl p2 = Ok D2 →
  (∀ url, url ∈ D1 → url ∉ D2) →
  forallb succeeds inputs1 = true →
  forallb succeeds inputs2 = true →
  let s1 := run origin getVersionedPackageUrl
              (step origin getVersionedPackageUrl s0 (Dispatch p1)) inputs1 in
  let s2 := step origin getVersionedPackageUrl s1 (Dispatch p2) in
  let s3 := run origin getVersionedPackageUrl s2 inputs2 in
  settled s1 →
  settled s3 →
  Dictionary.keys (_current s1) ≡ₚ remove_dups D1
  ∧ disposes (calls s3)
    = disposes (calls s1) ++ (disposable <$> Dictionary.values (_current s1))
  ∧ _current s2 = []
  ∧ Dictionary.keys (_current s3) ≡ₚ remove_dups D2.
Proof.
  intros Ha0 Hc0 Hs0 HD1 HD2 Hdis Hin1 Hin2 s1 s2 s3 Hs1 Hs3.
  assert (keyed (_current s0)) as Hk0.
  { rewrite Hc0. intros k f Hin. by apply elem_of_nil in Hin. }
  assert (∀ k, k ∈ Dictionary.keys (_current s0) → k ∉ D1) as Hdis0.
  { rewrite Hc0. intros k Hin. by apply elem_of_nil in Hin. }
  pose proof (reconciling_run _ _ _ inputs1 Hin1
                (reconciling_begins s0 p1 D1 Ha0 Hk0 Hs0 HD1 Hdis0)) as Hrec1.
  fold s1 in Hrec1.
  destruct (reconciling_settled _ _ _ Hrec1 Hs1) as (Hkeys1 & Hp1 & _).
  assert (updateAlive s1 = true) as Ha1.
  { unfold s1. rewrite run_alive by done.
    by destruct (dispatch_replaces_all s0 p1 D1 Ha0 Hk0 HD1 Hdis0)
      as (_&_&_&_&->&_). }
  assert (∀ k, k ∈ Dictionary.keys (_current s1) → k ∉ D2) as Hdis1.
  { intros k Hin. by apply Hdis, Hkeys1. }
  pose proof (reconciling_run _ _ _ inputs2 Hin2
                (reconciling_begins s1 p2 D2 Ha1 (reconciling_keyed _ _ _ Hrec1)
                   Hs1 HD2 Hdis1)) as Hrec2.
  fold s2 s3 in Hrec2.
  destruct (reconciling_settled _ _ _ Hrec2 Hs3) as (_ & Hp3 & Hd3).
  destruct (dispatch_replaces_all s1 p2 D2 Ha1 (reconciling_keyed _ _ _ Hrec1)
              HD2 Hdis1) as (Hcur2 & _).
  done.
Qed.

End Reconciliation.

(** ** The same pass twice *)

Lemma monacoReady_hit (s : State) (w : Waiting) (rest : list Waiting) (b : bool)
    (content : string) :
  waiting s = w :: rest →
  intellisenseCache s !! waiting_url w = Some content →
  monacoReady b s
  = _addIntellisense_settle b (waiting_source w)
      (Ok {| file_url := waiting_url w; file_content := content |})
      (with_waiting rest s).
Proof.
  intros Hw Hc. unfold monacoReady. rewrite Hw. unfold _get. simpl.
  rewrite bool_decide_eq_true_2 by (by eexists). by rewrite Hc.
Qed.

Section SamePassAgain.

Variable origin : string.
Variable getVersionedPackageUrl : string → string → string → string.

(** Adds for locators that are cached and registered already: each calls
    [addExtraLib] once more and changes neither the registrations nor the
    cache, and none sends a request. *)
Lemma registered_adds_register_again (ws : list Waiting) (bs : list bool)
    (s : State) :
  waiting s = ws →
  length bs = length ws →
  (∀ w, w ∈ ws →
        Dictionary.contains (waiting_url w) (_current s) = true
        ∧ is_Some (intellisenseCache s !! waiting_url w)) →
  let s' := run origin getVersionedPackageUrl s (MonacoReady <$> bs) in
  waiting s' = []
  ∧ inflight s' = inflight s
  ∧ _current s' = _current s
  ∧ intellisenseCache s' = intellisenseCache s
  ∧ fetches (calls s') = fetches (calls s)
  ∧ disposes (calls s') = disposes (calls s)
  ∧ registers (calls s') = registers (calls s) ++ (waiting_url <$> ws).
Proof.
  revert bs s. induction ws as [|w ws IH]; intros bs s Hw Hlen Hall.
  - destruct bs; [|done]. simpl. by rewrite app_nil_r.
  - destruct bs as [|b bs]; [done|]. injection Hlen as Hlen.
    destruct (Hall w) as [Hk [content Hc]]; [apply elem_of_cons; by left|].
    change (run origin getVersionedPackageUrl s (MonacoReady <$> b :: bs))
      with (run origin getVersionedPackageUrl (monacoReady b s) (MonacoReady <$> bs)).
    rewrite (monacoReady_hit s w ws b content Hw Hc).
    set (s1 := _addIntellisense_settle b (waiting_source w)
                 (Ok {| file_url := waiting_url w; file_content := content |})
                 (with_waiting ws s)).
    assert (_current s1 = _current s) as Hcur
      by (unfold s1; by rewrite settle_current_present).
    assert (intellisenseCache s1 = intellisenseCache s) as Hcache
      by (unfold s1; by rewrite settle_cache).
    destruct (IH bs s1) as (H1 & H2 & H3 & H4 & H5 & H6 & H7).
    + unfold s1. by rewrite settle_waiting.
    + done.
    + intros w' Hin. rewrite Hcur, Hcache. apply Hall. apply elem_of_cons. by right.
    + intros s'. unfold s'. rewrite H1, H2, H3, H4, H5, H6, H7, Hcur, Hcache.
      unfold s1. rewrite settle_inflight, settle_calls_ok.
      rewrite fetches_app, disposes_app, registers_app. simpl.
      by rewrite !app_nil_r, <- app_assoc.
Qed.

(** A pass for the locators that are registered and cached already sends no
    request and disposes of nothing, but calls [addExtraLib] for every one of
    them again. *)
Lemma same_pass_registers_again (s : State) (payload : Payload)
    (D : list string) (bs : list bool) :
  updateAlive s = true →
  keyed (_current s) →
  settled s →
  desiredLocators origin getVersionedPackageUrl payload = Ok D →
  (∀ k, k ∈ Dictionary.keys (_current s) ↔ k ∈ D) →
  (∀ url, url ∈ D → is_Some (intellisenseCache s !! url)) →
  length bs = length D →
  let s' := run origin getVersionedPackageUrl
              (step origin getVersionedPackageUrl s (Dispatch payload))
              (MonacoReady <$> bs) in
  settled s'
  ∧ _current s' = _current s
  ∧ fetches (calls s') = fetches (calls s)
  ∧ disposes (calls s') = disposes (calls s)
  ∧ registers (calls s') = registers (calls s) ++ D.
Proof.
  intros Ha Hk [Hw Hi] HD Hkeys Hcache Hlen s'.
  set (s1 := step origin getVersionedPackageUrl s (Dispatch payload)) in *.
  assert (intellisenseCache s1 = intellisenseCache s) as Hc1
    by apply updateIntellisense_cache.
  assert (_current s1 = _current s ∧ calls s1 = calls s
          ∧ inflight s1 = inflight s
          ∧ waiting s1
            = (λ file, {| waiting_url := file;
                          waiting_source := _determineSource (language payload) |})
              <$> D) as (Hcur & Hcalls & Hinf & Hwait).
  { unfold s1. simpl.
    unfold updateIntellisense, updateIntellisense_map. rewrite Ha.
    unfold desiredLocators in HD.
    destruct (additionalLibraries _ _ _) as [additional|e]; [|done].
    injection HD as HD. rewrite HD.
    rewrite filter_none_unused; [|done|by intros k Hin; apply Hkeys].
    simpl.
    destruct (mergeMap_facts D (language payload) s)
      as (-> & -> & -> & _ & _ & -> & _).
    by rewrite Hw. }
  destruct (registered_adds_register_again (waiting s1) bs s1 eq_refl)
    as (H1 & H2 & H3 & H4 & H5 & H6 & H7).
  - by rewrite Hwait, length_fmap.
  - intros w Hin. rewrite Hwait in Hin.
    apply list_elem_of_fmap in Hin as (url & -> & Hin). simpl.
    rewrite Hcur, Hc1. split; [|by apply Hcache].
    destruct (Dictionary.contains url (_current s)) eqn:E; [done|].
    apply contains_false in E. exfalso. by apply E, Hkeys.
  - fold s' in H1, H2, H3, H4, H5, H6, H7.
    split; [split; [done|by rewrite H2, Hinf]|].
    rewrite H3, H5, H6, H7, Hcur, Hcalls, Hwait, <- list_fmap_compose.
    repeat split; try done. f_equal.
    rewrite <- (list_fmap_id D) at 2. by apply list_fmap_ext.
Qed.

End SamePassAgain.


(** C1. A pass for the tab [script] without libraries settles with the
    authentication helper registered; a second pass with the same payload
    sends no request and disposes of nothing, yet it calls [addExtraLib] for
    the locator once more, whether or not the adapter accepts the call. *)
Theorem C1_second_pass_registers_again (adapterReturns : bool) :
  let s1 := run sampleOrigin sampleVersionedPackageUrl (initial ∅)
              [Dispatch scriptPayload; MonacoReady true;
               Response 0 (Ok "declare var x: number;") true] in
  let s2 := run sampleOrigin sampleVersionedPackageUrl s1
              [Dispatch scriptPayload; MonacoReady adapterReturns] in
  desiredLocators sampleOrigin sampleVersionedPackageUrl scriptPayload
    = Ok [authHelpers]
  ∧ settled s1
  ∧ Dictionary.keys (_current s1) = [authHelpers]
  ∧ settled s2
  ∧ fetches (calls s2) = fetches (calls s1)
  ∧ disposes (calls s2) = disposes (calls s1)
  ∧ registers (calls s1) = [authHelpers]
  ∧ registers (calls s2) = [authHelpers; authHelpers].
Proof. destruct adapterReturns; vm_compute; repeat split. Qed.

(** ** Failures of single adds *)

(** The action of [addIntellisense$] does not tell a failed add from one
    that succeeded. *)
Lemma failure_indistinguishable (e : Exception) (intellisense : IDisposableFile) :
  _addIntellisense_catch (Throw e)
    = Reported (ReportErrorAction intellisenseLoadError e)
  ∧ addIntellisense_map (_addIntellisense_catch (Throw e))
    = addIntellisense_map (_addIntellisense_catch (Ok intellisense)).
Proof. done. Qed.

(** C4. In a pass for two locators the request for the first fails and the
    request for the second succeeds: the second is registered and the first
    has no registration, but the effect emits the same
    [UpdateIntellisenseSuccessAction] for both, and no [ReportErrorAction]
    for the failure. *)
Theorem C4_failure_emitted_as_success :
  let s := run sampleOrigin sampleVersionedPackageUrl (initial ∅)
             [Dispatch lodashPayload; MonacoReady true; MonacoReady true;
              Response 0 (Throw (RequestError "404")) true;
              Response 0 (Ok "declare var x: number;") true] in
  desiredLocators sampleOrigin sampleVersionedPackageUrl lodashPayload
    = Ok [lodash; authHelpers]
  ∧ settled s
  ∧ fetches (calls s) = [lodash; authHelpers]
  ∧ Dictionary.keys (_current s) = [authHelpers]
  ∧ intellisenseCache s !! lodash = None
  ∧ dispatched s
    = [AddIntellisenseAction lodash "typescript";
       AddIntellisenseAction authHelpers "typescript";
       UpdateIntellisenseSuccessAction;
       UpdateIntellisenseSuccessAction].
Proof. vm_compute. repeat split. Qed.

(** ** Requests for one locator at the same time *)


Lemma monacoReady_miss (s : State) (w : Waiting) (rest : list Waiting) (b : bool) :
  waiting s = w :: rest →
  intellisenseCache s !! waiting_url w = None →
  monacoReady b s
  = with_inflight (inflight s ++ [w])
      (call (RequestGet (waiting_url w)) (with_waiting rest s)).
Proof.
  intros Hw Hc. unfold monacoReady. rewrite Hw. unfold _get. simpl.
  rewrite bool_decide_eq_false_2; [done|]. rewrite Hc. by intros [? ?].
Qed.

Lemma response_ok (s : State) (i : nat) (w : Waiting) (content : string) (b : bool) :
  inflight s !! i = Some w →
  response i (Ok content) b s
  = _addIntellisense_settle b (waiting_source w)
      (Ok {| file_url := waiting_url w; file_content := content |})
      (with_cache (<[waiting_url w := content]> (intellisenseCache s))
         (with_inflight (delete i (inflight s)) s)).
Proof. intros H. unfold response. by rewrite H. Qed.

Lemma contains_snoc {A} (key : string) (value : A) (d : Dictionary.t A) :
  Dictionary.contains key (d ++ [(key, value)]) = true.
Proof.
  unfold Dictionary.contains.
  induction d as [|[k v] d IH]; simpl.
  - by rewrite String.eqb_refl.
  - by destruct (String.eqb key k).
Qed.

Lemma occurrences_app url l1 l2 :
  occurrences url (l1 ++ l2) = occurrences url l1 + occurrences url l2.
Proof. unfold occurrences. by rewrite List.filter_app, length_app. Qed.



(** ** The theorems at work on the sample session *)

Lemma C7_invalid_surface_rejected_witness :
  step sampleOrigin sampleVersionedPackageUrl (initial ∅) (Dispatch stylePayload)
  = with_alive false
      (emit (ReportErrorAction intellisenseUpdateError InvalidTabName) (initial ∅)).
Proof.
  apply (C7_invalid_surface_rejected sampleOrigin sampleVersionedPackageUrl
           (initial ∅) stylePayload); discriminate.
Defined.

Lemma C5_cache_not_poisoned_witness :
  let s := step sampleOrigin sampleVersionedPackageUrl (initial ∅)
             (Dispatch scriptPayload) in
  _get authHelpers s = (call (RequestGet authHelpers) s, Later)
  ∧ intellisenseCache
      (response 0 (Throw (RequestError "timeout")) true (monacoReady true s))
    !! authHelpers = None.
Proof.
  intros s.
  destruct (C5_cache_not_poisoned s
              {| waiting_url := authHelpers; waiting_source := typescriptDefaults |}
              [] true eq_refl eq_refl) as (H1 & _ & _ & _ & _ & H2).
  split; [exact H1|].
  destruct (H2 (RequestError "timeout") true) as (_ & _ & H3 & _). exact H3.
Defined.

Lemma C8_cache_reuse_witness :
  let s := run sampleOrigin sampleVersionedPackageUrl (initial ∅)
             [Dispatch scriptPayload; MonacoReady true;
              Response 0 (Ok "declare var x: number;") true] in
  let s' := run sampleOrigin sampleVersionedPackageUrl s
              [Dispatch customFunctionsPayload; Dispatch scriptPayload] in
  ∃ stored,
    intellisenseCache s' !! authHelpers = Some stored
    ∧ _get authHelpers s'
      = (s', Now {| file_url := authHelpers; file_content := stored |})
    ∧ fetches (calls (_get authHelpers s').1) = fetches (calls s')
    ∧ intellisenseCache (_get authHelpers s').1 = intellisenseCache s'.
Proof.
  intros s.
  apply (C8_cache_reuse sampleOrigin sampleVersionedPackageUrl s authHelpers
           "declare var x: number;"
           [Dispatch customFunctionsPayload; Dispatch scriptPayload]).
  vm_compute. reflexivity.
Defined.


Example same_pass_registers_again_sample :
  let s1 := run sampleOrigin sampleVersionedPackageUrl (initial ∅)
              [Dispatch scriptPayload; MonacoReady true;
               Response 0 (Ok "declare var x: number;") true] in
  let s2 := run sampleOrigin sampleVersionedPackageUrl
              (step sampleOrigin sampleVersionedPackageUrl s1 (Dispatch scriptPayload))
              (MonacoReady <$> [true]) in
  registers (calls s2) = registers (calls s1) ++ [authHelpers].
Proof.
  intros s1.
  assert (_current s1
          = [(authHelpers, {| disposable_url := authHelpers; disposable := 0 |})])
    as Hcur by (vm_compute; reflexivity).
  apply (same_pass_registers_again sampleOrigin sampleVersionedPackageUrl s1
           scriptPayload [authHelpers] [true]).
  - vm_compute. reflexivity.
  - rewrite Hcur. intros k f Hin. apply list_elem_of_singleton in Hin.
    by inversion Hin.
  - vm_compute. by split.
  - vm_compute. reflexivity.
  - intros k. by rewrite Hcur.
  - intros url Hin. apply list_elem_of_singleton in Hin as ->.
    exists "declare var x: number;". vm_compute. reflexivity.
  - reflexivity.
Qed.

Example failure_isolated_sample :
  let s := run sampleOrigin sampleVersionedPackageUrl
             (step sampleOrigin sampleVersionedPackageUrl (initial ∅)
                (Dispatch lodashPayload))
             [MonacoReady true; MonacoReady true] in
  let s' := run sampleOrigin sampleVersionedPackageUrl
              (response 0 (Throw (RequestError "404")) true s)
              [Response 0 (Ok "declare var x: number;") true] in
  Dictionary.keys (_current s') ≡ₚ [authHelpers]
  ∧ (lodash ∉ Dictionary.keys (_current s')).
Proof.
  intros s s'.
  assert (adding [lodash; authHelpers]
            (registers (calls (initial ∅)))
            (disposes (calls (initial ∅))
             ++ (disposable <$> Dictionary.values (_current (initial ∅)))) s)
    as Hadd.
  { apply adding_run; [done|]. apply adding_begins.
    - done.
    - intros k f Hin. by apply elem_of_nil in Hin.
    - done.
    - vm_compute. reflexivity.
    - apply (bool_decide_unpack _). vm_compute. exact I.
    - intros k Hin. by apply elem_of_nil in Hin. }
  destruct (failure_isolated sampleOrigin sampleVersionedPackageUrl
              _ [authHelpers] _ _ s 0
              {| waiting_url := lodash; waiting_source := typescriptDefaults |}
              (RequestError "404") true
              [Response 0 (Ok "declare var x: number;") true] Hadd)
    as (H1 & H2 & _); try done.
Qed.

(** * Further properties of the resolver *)

(** ** Reversal and trimming *)

Lemma append_assoc (a b c : string) : (a +:+ b) +:+ c = a +:+ (b +:+ c).
Proof.
  induction a as [|x a IH]; [done|]. rewrite !append_cons. by rewrite IH.
Qed.

Lemma rev_app_append (s a b : string) :
  String.rev_app s (a +:+ b) = String.rev_app s a +:+ b.
Proof.
  revert a. induction s as [|c s IH]; intros a; [done|].
  simpl. rewrite <- IH. by rewrite append_cons.
Qed.

Lemma rev_cons (c : ascii) (s : string) :
  String.rev (String c s) = String.rev s +:+ String c "".
Proof.
  unfold String.rev. simpl.
  by rewrite <- rev_app_append.
Qed.

Lemma rev_append (a b : string) :
  String.rev (a +:+ b) = String.rev b +:+ String.rev a.
Proof.
  induction a as [|c a IH].
  - change ("" +:+ b) with b. by rewrite append_empty_r.
  - rewrite append_cons, !rev_cons, IH. by rewrite append_assoc.
Qed.

Lemma allWhiteSpace_append (a b : string) :
  allWhiteSpace (a +:+ b) = allWhiteSpace a && allWhiteSpace b.
Proof.
  induction a as [|c a IH]; [done|].
  rewrite append_cons. simpl. rewrite IH. by rewrite andb_assoc.
Qed.

Lemma allWhiteSpace_rev (s : string) :
  allWhiteSpace (String.rev s) = allWhiteSpace s.
Proof.
  induction s as [|c s IH]; [done|].
  rewrite rev_cons, allWhiteSpace_append, IH. simpl.
  by rewrite andb_true_r, andb_comm.
Qed.

Lemma trimStart_white (w x : string) :
  allWhiteSpace w = true → JS.trimStart (w +:+ x) = JS.trimStart x.
Proof.
  induction w as [|c w IH]; intros H; [done|].
  simpl in H. apply andb_prop in H as [Hc Hw].
  rewrite append_cons. simpl. rewrite Hc. by apply IH.
Qed.

Lemma trimStart_empty (s : string) :
  JS.trimStart s = "" ↔ allWhiteSpace s = true.
Proof.
  induction s as [|c s IH]; simpl; [done|].
  destruct (JS.isWhiteSpace c); simpl; [done|]. split; discriminate.
Qed.

Lemma trimStart_append (a b : string) :
  JS.trimStart a ≠ "" → JS.trimStart (a +:+ b) = JS.trimStart a +:+ b.
Proof.
  induction a as [|c a IH]; intros H; [done|].
  rewrite append_cons. simpl in *.
  destruct (JS.isWhiteSpace c); [by apply IH|]. by rewrite append_cons.
Qed.

Lemma trimEnd_white (x w : string) :
  allWhiteSpace w = true → JS.trimEnd (x +:+ w) = JS.trimEnd x.
Proof.
  intros H. unfold JS.trimEnd.
  rewrite rev_append, trimStart_white; [done|]. by rewrite allWhiteSpace_rev.
Qed.

Lemma trim_empty (s : string) : allWhiteSpace s = true → JS.trim s = "".
Proof.
  intros H. unfold JS.trim. apply trimStart_empty in H. by rewrite H.
Qed.

(** White space around a string is lost on trimming, and nothing else. *)
Lemma trim_padding (before s after : string) :
  allWhiteSpace before = true →
  allWhiteSpace after = true →
  JS.trim (before +:+ s +:+ after) = JS.trim s.
Proof.
  intros Hb Ha. unfold JS.trim. rewrite trimStart_white by done.
  destruct (allWhiteSpace s) eqn:Hs.
  - rewrite (proj2 (trimStart_empty (s +:+ after)))
      by (by rewrite allWhiteSpace_append, Hs, Ha).
    by rewrite (proj2 (trimStart_empty s)).
  - rewrite trimStart_append, trimEnd_white; [done|done|].
    intros H. apply trimStart_empty in H. congruence.
Qed.

(** X1. White space before and after a library reference does not change
    what the resolver answers for it. *)
Theorem X1_parse_ignores_padding (tabName before reference after : string) :
  allWhiteSpace before = true →
  allWhiteSpace after = true →
  _parse_library tabName (before +:+ reference +:+ after)
  = _parse_library tabName reference.
Proof.
  intros Hb Ha. unfold _parse_library. by rewrite trim_padding.
Qed.

(** ** What the resolver returns *)

Lemma allWhiteSpace_trimStart (s : string) :
  allWhiteSpace (JS.trimStart s) = allWhiteSpace s.
Proof.
  induction s as [|c s IH]; [done|]. simpl.
  destruct (JS.isWhiteSpace c) eqn:Hc; simpl; [done|]. by rewrite Hc.
Qed.

Lemma rev_empty (s : string) : String.rev s = "" → s = "".
Proof. intros H. by rewrite <- (rev_rev s), H. Qed.

(** [url && url.trim() !== ''] holds of the strings that are not white
    space only. *)
Lemma nonBlank_allWhiteSpace (s : string) :
  nonBlank (Some s) = negb (allWhiteSpace s).
Proof.
  unfold nonBlank. destruct (allWhiteSpace s) eqn:Hs; simpl.
  - rewrite (trim_empty s Hs). simpl. by rewrite andb_false_r.
  - assert (s ≠ "") as Hne by (intros ->; discriminate).
    assert (JS.trim s ≠ "") as Hnt.
    { unfold JS.trim, JS.trimEnd. intros H. apply rev_empty in H.
      apply trimStart_empty in H.
      rewrite allWhiteSpace_rev, allWhiteSpace_trimStart in H. congruence. }
    apply String.eqb_neq in Hne, Hnt. by rewrite Hne, Hnt.
Qed.

Lemma absolute_not_white (url : string) :
  absolute url = true → allWhiteSpace url = false.
Proof.
  unfold absolute, JS.testAtStart. intros H.
  destruct url as [|c url]; [done|]. simpl.
  assert (Ascii.eqb (JS.toLower "h") (JS.toLower c) = true) as Hc.
  { apply orb_prop in H as [H|H]; simpl in H; by apply andb_prop in H as [H _]. }
  replace (JS.isWhiteSpace c) with false; [done|].
  clear H. destruct c as [[] [] [] [] [] [] [] []]; by vm_compute in Hc |- *.
Qed.

Lemma parse_absolute (tabName reference url : string) :
  _parse_library tabName reference = Some url → absolute url = true.
Proof.
  unfold _parse_library. set (library := JS.trim reference).
  destruct (JS.testAtStart false (JS.lits "@types") library).
  { destruct (_ && _); [done|]. by intros [= <-]. }
  destruct (JS.testAtStart false (JS.lits "dt~") library).
  { destruct (_ && _); [done|]. by intros [= <-]. }
  destruct (JS.testAtEnd true (JS.lits ".d.ts") library); [|done].
  destruct (_ && _); [done|].
  destruct (_ || _) eqn:Habs; by intros [= <-].
Qed.

(** X2. Whatever the resolver returns for a reference, on either surface,
    is an address that starts with [http:] or [https:] in some letter case,
    and so it is never blank. *)
Theorem X2_locators_absolute (tabName reference url : string) :
  _parse_library tabName reference = Some url →
  absolute url = true ∧ nonBlank (Some url) = true.
Proof.
  intros H. apply parse_absolute in H. split; [done|].
  by rewrite nonBlank_allWhiteSpace, absolute_not_white.
Qed.

Lemma filter_nonBlank_parse (libraries : list string) (tabName : string) :
  omap id (List.filter nonBlank (_parse libraries tabName))
  = omap id (_parse libraries tabName).
Proof.
  unfold _parse. induction libraries as [|l libraries IH]; [done|].
  rewrite fmap_cons. cbn [List.filter].
  destruct (_parse_library tabName l) as [url|] eqn:Hl.
  - apply parse_absolute in Hl.
    rewrite nonBlank_allWhiteSpace, absolute_not_white by done. simpl.
    f_equal. exact IH.
  - simpl. exact IH.
Qed.

Lemma filter_nonBlank_some (l : list string) :
  omap id (List.filter nonBlank (Some <$> l))
  = List.filter (λ url, negb (allWhiteSpace url)) l.
Proof.
  induction l as [|x l IH]; [done|]. rewrite fmap_cons. cbn [List.filter].
  rewrite nonBlank_allWhiteSpace.
  destruct (allWhiteSpace x); simpl; [|f_equal]; exact IH.
Qed.

Lemma urlsToInclude_split (libraries : list string) (tabName : string)
    (additional : list string) :
  urlsToInclude libraries tabName additional
  = omap id (_parse libraries tabName)
    ++ List.filter (λ url, negb (allWhiteSpace url)) additional.
Proof.
  unfold urlsToInclude.
  by rewrite List.filter_app, omap_app, filter_nonBlank_parse, filter_nonBlank_some.
Qed.

(** X3. The files of a pass are the references that resolve, in the order
    of the payload and as often as they occur, followed by the additional
    libraries that are not blank: the filter for blank locators drops no
    resolved reference. *)
Theorem X3_files_of_a_pass (libraries : list string) (tabName : string)
    (additional : list string) :
  urlsToInclude libraries tabName additional
  = omap id (_parse libraries tabName)
    ++ List.filter (λ url, negb (allWhiteSpace url)) additional.
Proof.
  unfold urlsToInclude. rewrite List.filter_app, omap_app.
  f_equal; [apply filter_nonBlank_parse | apply filter_nonBlank_some].
Qed.

(** X4. On the tab [script] the files of a pass end with the
    authentication helper of the origin, whatever the origin and the
    libraries are; on the tab [customFunctions] they end with the
    declarations of custom functions and, unless its address is blank, the
    versioned [office.d.ts]. *)
Theorem X4_implicit_libraries (origin : string)
    (getVersionedPackageUrl : string → string → string → string)
    (payload : Payload) :
  (tabName payload = "script" →
   desiredLocators origin getVersionedPackageUrl payload
   = Ok (omap id (_parse (libraries payload) "script")
         ++ [origin +:+ "/libs/auth-helpers.d.ts"]))
  ∧ (tabName payload = "customFunctions" →
     desiredLocators origin getVersionedPackageUrl payload
     = Ok (omap id (_parse (libraries payload) "customFunctions")
           ++ (origin +:+ "/libs/custom-functions.d.ts")
              :: List.filter (λ url, negb (allWhiteSpace url))
                   [getVersionedPackageUrl origin "@microsoft/office-js"
                      "office.d.ts"])).
Proof.
  split; intros Htab; unfold desiredLocators, additionalLibraries;
    rewrite Htab; simpl; rewrite urlsToInclude_split; do 2 f_equal;
    cbn [List.filter]; rewrite allWhiteSpace_append, andb_false_r; done.
Qed.

Lemma X4_implicit_libraries_witness :
  desiredLocators sampleOrigin sampleVersionedPackageUrl lodashPayload
  = Ok [lodash; authHelpers]
  ∧ desiredLocators sampleOrigin sampleVersionedPackageUrl customFunctionsPayload
    = Ok [lodash; customFunctionsDeclarations; officeDeclarations].
Proof.
  destruct (X4_implicit_libraries sampleOrigin sampleVersionedPackageUrl
              lodashPayload) as [H1 _].
  destruct (X4_implicit_libraries sampleOrigin sampleVersionedPackageUrl
              customFunctionsPayload) as [_ H2].
  split; [exact (H1 eq_refl) | exact (H2 eq_refl)].
Defined.

Lemma X1_parse_ignores_padding_witness :
  _parse_library "script" ("  " +:+ "dt~lodash" +:+ " ")
  = _parse_library "script" "dt~lodash".
Proof. apply X1_parse_ignores_padding; reflexivity. Defined.

Lemma X2_locators_absolute_witness :
  absolute "HTTP://example.org/x.D.TS" = true
  ∧ nonBlank (Some "HTTP://example.org/x.D.TS") = true.
Proof.
  apply (X2_locators_absolute "customFunctions" " HTTP://example.org/x.D.TS").
  reflexivity.
Defined.

(** ** References to declaration files *)

Lemma toLower_dot (c : ascii) :
  Ascii.eqb (JS.toLower ".") (JS.toLower c) = true → c = "."%char.
Proof.
  intros H. destruct c as [[] [] [] [] [] [] [] []];
    first [reflexivity | by vm_compute in H].
Qed.

(** Behind [/\.d\.ts$/i], the two unescaped dots of [/office.d.ts$/i] can
    only meet the dots of the suffix. *)
Lemma office_pattern (library : string) :
  JS.testAtEnd true (JS.lits ".d.ts") library = true →
  JS.testAtEnd true
    (JS.lits "office" ++ [JS.Dot] ++ JS.lits "d" ++ [JS.Dot] ++ JS.lits "ts")
    library
  = JS.testAtEnd true (JS.lits "office.d.ts") library.
Proof.
  unfold JS.testAtEnd. generalize (String.rev library) as x. intros x H.
  vm_compute (reverse _) in H. vm_compute (reverse _).
  destruct x as [|c1 [|c2 [|c3 [|c4 [|c5 x]]]]]; cbn [JS.matchHere] in H;
    rewrite ?andb_false_r in H; try discriminate H.
  apply andb_prop in H as [_ H]. apply andb_prop in H as [_ H].
  apply andb_prop in H as [H3 H]. apply andb_prop in H as [_ H].
  apply andb_prop in H as [H5 _].
  apply toLower_dot in H3 as ->. apply toLower_dot in H5 as ->.
  reflexivity.
Qed.

(** X5. A reference that is neither a [@types] nor a [dt~] shorthand and
    ends with [.d.ts] in some letter case resolves to itself when it starts
    with [http:] or [https:], and to its address on unpkg otherwise; on the
    tab [customFunctions] it is dropped exactly when it ends with
    [office.d.ts] in some letter case, whatever stands before. *)
Theorem X5_declaration_file_reference (reference : string) :
  let library := JS.trim reference in
  let address := if absolute library then library
                 else "https://unpkg.com/" +:+ library in
  JS.startsWith library "@types" = false →
  JS.startsWith library "dt~" = false →
  JS.testAtEnd true (JS.lits ".d.ts") library = true →
  _parse_library "script" reference = Some address
  ∧ _parse_library "customFunctions" reference
    = (if JS.testAtEnd true (JS.lits "office.d.ts") library then None
       else Some address).
Proof.
  intros library address H1 H2 H3. unfold _parse_library.
  fold library. rewrite !testAtStart_lits.
  unfold JS.startsWith in H1, H2. rewrite H1, H2, H3.
  rewrite office_pattern by done. fold (absolute library). unfold address.
  split.
  - by destruct (absolute library).
  - simpl. destruct (JS.testAtEnd true (JS.lits "office.d.ts") library); [done|].
    by destruct (absolute library).
Qed.

Lemma X5_declaration_file_reference_witness :
  _parse_library "script" "libs/BackOffice.D.ts"
  = Some "https://unpkg.com/libs/BackOffice.D.ts"
  ∧ _parse_library "customFunctions" "libs/BackOffice.D.ts" = None.
Proof.
  apply (X5_declaration_file_reference "libs/BackOffice.D.ts"); reflexivity.
Defined.

(** * Further properties of reconciliation *)

(** ** Removing the registrations that are no longer desired *)

Lemma filter_sublist {A} (P : A → bool) (l : list A) :
  List.filter P l `sublist_of` l.
Proof.
  induction l as [|x l IH]; simpl; [constructor|].
  destruct (P x); by constructor.
Qed.

Lemma contains_middle {A} (key : string) (value : A) (d1 d2 : Dictionary.t A) :
  Dictionary.contains key (d1 ++ (key, value) :: d2) = true.
Proof.
  unfold Dictionary.contains.
  induction d1 as [|[k v] d1 IH]; simpl.
  - by rewrite String.eqb_refl.
  - by destruct (String.eqb key k).
Qed.

Lemma delete_middle_key {A} (key : string) (value : A) (d1 d2 : Dictionary.t A) :
  key ∉ Dictionary.keys d1 →
  Dictionary.delete key (d1 ++ (key, value) :: d2) = d1 ++ d2.
Proof.
  induction d1 as [|[k v] d1 IH]; simpl; intros Hk.
  - by rewrite String.eqb_refl.
  - apply not_elem_of_cons in Hk as [Hne Hk].
    apply String.eqb_neq in Hne. rewrite Hne. by rewrite IH.
Qed.

Lemma wellFormed_sub (d1 d2 : Dictionary.t IDisposableFile) :
  d1 `sublist_of` d2 →
  keyed d2 → NoDup (Dictionary.keys d2) →
  keyed d1 ∧ NoDup (Dictionary.keys d1).
Proof.
  intros Hsub Hk Hnd. split.
  - intros k f Hin. apply Hk. by eapply elem_of_sublist.
  - eapply sublist_NoDup; [done|]. by apply fmap_sublist.
Qed.

(** The loop over the unused files, started on a dictionary of which the
    part [kept] has been gone through already. *)
Lemma disposeUnused_filtered (D : list string)
    (d kept : Dictionary.t IDisposableFile) (s : State) :
  _current s = kept ++ d →
  keyed (kept ++ d) →
  NoDup (Dictionary.keys (kept ++ d)) →
  let r := disposeUnused (noLongerDesired D d) s in
  r.2 = None
  ∧ _current r.1 = kept ++ stillDesired D d
  ∧ calls r.1
    = calls s ++ ((λ f, Dispose (disposable f)) <$> noLongerDesired D d).
Proof.
  revert kept s. induction d as [|[k f] d IH]; intros kept s Hcur Hk Hnd.
  - simpl. by rewrite Hcur, !app_nil_r.
  - assert (disposable_url f = k) as Hf.
    { apply Hk. apply elem_of_app. right. apply elem_of_cons. by left. }
    unfold noLongerDesired, stillDesired, notIncluded in *.
    cbn [Dictionary.values fmap list_fmap List.filter snd fst].
    rewrite Hf. destruct (bool_decide (k ∈ D)) eqn:HkD.
    + cbn [negb].
      destruct (IH (kept ++ [(k, f)]) s) as (H1 & H2 & H3).
      * by rewrite <- app_assoc.
      * by rewrite <- app_assoc.
      * by rewrite <- app_assoc.
      * split; [done|]. split; [|done].
        etrans; [exact H2|]. by rewrite <- app_assoc.
    + cbn [negb disposeUnused].
      assert (k ∉ Dictionary.keys kept) as Hnk.
      { rewrite keys_app in Hnd. apply NoDup_app in Hnd as (_ & Hnd & _).
        intros Hin. apply (Hnd k Hin). simpl. apply elem_of_cons. by left. }
      unfold Dictionary.remove. simpl. rewrite Hcur, Hf.
      rewrite contains_middle, delete_middle_key by done.
      destruct (wellFormed_sub (kept ++ d) (kept ++ (k, f) :: d)) as [Hk' Hnd'];
        [apply sublist_app; [done|by apply sublist_cons]|done|done|].
      destruct (IH kept (with_current (kept ++ d)
                           (call (Dispose (disposable f)) s)) eq_refl Hk' Hnd')
        as (H1 & H2 & H3).
      split; [done|]. split; [done|].
      etrans; [exact H3|]. simpl. by rewrite <- app_assoc.
Qed.

Lemma desiredLocators_throw (origin : string)
    (getVersionedPackageUrl : string → string → string → string)
    (payload : Payload) (e : Exception) :
  desiredLocators origin getVersionedPackageUrl payload = Throw e →
  e = InvalidTabName
  ∧ ∀ s, step origin getVersionedPackageUrl s (Dispatch payload)
         = if updateAlive s
           then with_alive false
                  (emit (ReportErrorAction intellisenseUpdateError InvalidTabName) s)
           else s.
Proof.
  unfold desiredLocators, additionalLibraries. intros H.
  assert (e = InvalidTabName) as ->.
  { destruct (String.eqb (tabName payload) "script"); [done|].
    destruct (String.eqb (tabName payload) "customFunctions"); [done|].
    by injection H. }
  split; [done|]. intros s. simpl.
  unfold updateIntellisense, updateIntellisense_map, additionalLibraries.
  destruct (String.eqb (tabName payload) "script"); [done|].
  by destruct (String.eqb (tabName payload) "customFunctions").
Qed.

(** One [UPDATE_INTELLISENSE] with a valid tab name, on well-formed
    registrations. *)
Lemma dispatch_reconciles (origin : string)
    (getVersionedPackageUrl : string → string → string → string)
    (s : State) (payload : Payload) (D : list string) :
  updateAlive s = true →
  wellFormed s →
  desiredLocators origin getVersionedPackageUrl payload = Ok D →
  let s' := step origin getVersionedPackageUrl s (Dispatch payload) in
  _current s' = stillDesired D (_current s)
  ∧ calls s'
    = calls s ++ ((λ f, Dispose (disposable f)) <$> noLongerDesired D (_current s))
  ∧ waiting s'
    = waiting s
      ++ ((λ file, {| waiting_url := file;
                      waiting_source := _determineSource (language payload) |}) <$> D)
  ∧ inflight s' = inflight s
  ∧ updateAlive s' = true
  ∧ nextHandle s' = nextHandle s
  ∧ intellisenseCache s' = intellisenseCache s
  ∧ dispatched s'
    = dispatched s ++ ((λ file, AddIntellisenseAction file (language payload)) <$> D).
Proof.
  intros Ha [Hk Hnd] HD s'.
  assert (intellisenseCache s' = intellisenseCache s) as Hcache
    by apply updateIntellisense_cache.
  unfold s'. simpl. unfold s' in Hcache. simpl in Hcache. revert Hcache.
  unfold updateIntellisense, updateIntellisense_map. rewrite Ha.
  unfold desiredLocators in HD.
  destruct (additionalLibraries _ _ _) as [additional|e]; [|done].
  injection HD as HD. rewrite HD.
  destruct (disposeUnused_filtered D (_current s) [] s eq_refl Hk Hnd)
    as (H1 & H2 & H3).
  pose proof (disposeUnused_rest (noLongerDesired D (_current s)) s)
    as (H4 & H5 & H6 & H7 & H8).
  fold (noLongerDesired D (_current s)).
  destruct (disposeUnused (noLongerDesired D (_current s)) s) as [s1 o].
  simpl in *. subst o.
  destruct (mergeMap_facts D (language payload) s1)
    as (-> & -> & -> & -> & -> & -> & ->).
  intros Hcache. by rewrite H2, H3, H4, H5, H6, H7, H8.
Qed.

Lemma keys_stillDesired (D : list string) (d : Dictionary.t IDisposableFile)
    (url : string) :
  url ∈ Dictionary.keys (stillDesired D d)
  ↔ url ∈ Dictionary.keys d ∧ url ∈ D.
Proof.
  unfold stillDesired, Dictionary.keys. split.
  - intros Hin. apply list_elem_of_fmap in Hin as ([k f] & -> & Hin).
    apply list_elem_of_In, List.filter_In in Hin as [Hin HD].
    split; [|by apply bool_decide_eq_true in HD].
    apply list_elem_of_fmap. exists (k, f). split; [done|].
    by apply list_elem_of_In.
  - intros [Hin HinD].
    apply list_elem_of_fmap in Hin as ([k f] & -> & Hin).
    apply list_elem_of_fmap. exists (k, f). split; [done|].
    apply list_elem_of_In, List.filter_In. split; [by apply list_elem_of_In|].
    by apply bool_decide_eq_true.
Qed.

(** X6. An [UPDATE_INTELLISENSE] with a valid tab name keeps, in their
    order and with their handles, exactly the registrations whose locator is
    among the files of the pass, calls [dispose] on the handle of every other
    registration and removes it, sends no request and registers nothing in
    the same turn, and leaves the stream alive. *)
Theorem X6_dispatch_keeps_desired (origin : string)
    (getVersionedPackageUrl : string → string → string → string)
    (s : State) (payload : Payload) (D : list string) :
  updateAlive s = true →
  wellFormed s →
  desiredLocators origin getVersionedPackageUrl payload = Ok D →
  let s' := step origin getVersionedPackageUrl s (Dispatch payload) in
  _current s' = stillDesired D (_current s)
  ∧ disposes (calls s')
    = disposes (calls s) ++ (disposable <$> noLongerDesired D (_current s))
  ∧ fetches (calls s') = fetches (calls s)
  ∧ registers (calls s') = registers (calls s)
  ∧ updateAlive s' = true
  ∧ (∀ url, url ∈ Dictionary.keys (_current s')
            ↔ url ∈ Dictionary.keys (_current s) ∧ url ∈ D).
Proof.
  intros Ha Hwf HD s'.
  destruct (dispatch_reconciles origin getVersionedPackageUrl s payload D Ha Hwf HD)
    as (H1 & H2 & _ & _ & H5 & _).
  fold s' in H1, H2, H5. rewrite H1, H2, H5.
  rewrite disposes_app, fetches_app, registers_app.
  rewrite disposes_disposals, fetches_disposals, registers_disposals, !app_nil_r.
  split; [done|]. split; [done|]. split; [done|]. split; [done|].
  split; [done|]. intros url. apply keys_stillDesired.
Qed.

(** ** The shapes of the transitions *)

Lemma monacoReady_cases (b : bool) (s : State) :
  monacoReady b s = s
  ∨ (∃ w rest content,
       waiting s = w :: rest
       ∧ intellisenseCache s !! waiting_url w = Some content
       ∧ monacoReady b s
         = _addIntellisense_settle b (waiting_source w)
             (Ok {| file_url := waiting_url w; file_content := content |})
             (with_waiting rest s))
  ∨ (∃ w rest,
       waiting s = w :: rest
       ∧ intellisenseCache s !! waiting_url w = None
       ∧ monacoReady b s
         = with_inflight (inflight s ++ [w])
             (call (RequestGet (waiting_url w)) (with_waiting rest s))).
Proof.
  destruct (waiting s) as [|w rest] eqn:Hw.
  - left. unfold monacoReady. by rewrite Hw.
  - right. destruct (intellisenseCache s !! waiting_url w) as [content|] eqn:Hc.
    + left. exists w, rest, content. repeat split; try done.
      by apply monacoReady_hit.
    + right. exists w, rest. repeat split; try done. by apply monacoReady_miss.
Qed.

Lemma response_cases (i : nat) (result : Result string) (b : bool) (s : State) :
  response i result b s = s
  ∨ (∃ w content,
       inflight s !! i = Some w ∧ result = Ok content
       ∧ response i result b s
         = _addIntellisense_settle b (waiting_source w)
             (Ok {| file_url := waiting_url w; file_content := content |})
             (with_cache (<[waiting_url w := content]> (intellisenseCache s))
                (with_inflight (delete i (inflight s)) s)))
  ∨ (∃ w e,
       inflight s !! i = Some w ∧ result = Throw e
       ∧ response i result b s
         = emit UpdateIntellisenseSuccessAction
             (with_inflight (delete i (inflight s)) s)).
Proof.
  destruct (inflight s !! i) as [w|] eqn:Hi.
  - right. destruct result as [content|e].
    + left. exists w, content. repeat split; try done. by apply response_ok.
    + right. exists w, e. repeat split; try done.
      by apply (response_failure_isolated s i w).
  - left. unfold response. by rewrite Hi.
Qed.

(** What one add does to the registrations and to the handles. *)
Lemma settle_cases (b : bool) (src : Source) (got : Result IIntellisenseFile)
    (s : State) :
  let s' := _addIntellisense_settle b src got s in
  (_current s' = _current s
   ∧ (nextHandle s' = nextHandle s ∨ nextHandle s' = S (nextHandle s)))
  ∨ (∃ file,
       got = Ok file ∧ b = true
       ∧ Dictionary.contains (file_url file) (_current s) = false
       ∧ _current s'
         = _current s
           ++ [(file_url file,
                {| disposable_url := file_url file; disposable := nextHandle s |})]
       ∧ nextHandle s' = S (nextHandle s)).
Proof.
  intros s'. destruct got as [file|e]; [|left; by split; [|left]].
  destruct b; [|left; by split; [|left]].
  destruct (Dictionary.contains (file_url file) (_current s)) eqn:Hc.
  - left. split; [by apply settle_current_present|]. right.
    unfold s', _addIntellisense_settle, _addIntellisense_map, Dictionary.add.
    simpl. by rewrite Hc.
  - right. exists file. destruct (settle_registers src file s Hc) as [H1 H2].
    by repeat split.
Qed.

Lemma settle_disposes b src got s :
  disposes (calls (_addIntellisense_settle b src got s)) = disposes (calls s).
Proof.
  destruct got as [file|e]; [|done].
  by rewrite settle_calls_ok, disposes_app, app_nil_r.
Qed.

Lemma settle_fetches b src got s :
  fetches (calls (_addIntellisense_settle b src got s)) = fetches (calls s).
Proof.
  destruct got as [file|e]; [|done].
  by rewrite settle_calls_ok, fetches_app, app_nil_r.
Qed.

(** ** Well-formed registrations *)

Lemma settle_wellFormed b src got s :
  wellFormed s → wellFormed (_addIntellisense_settle b src got s).
Proof.
  intros [Hk Hnd]. unfold wellFormed.
  destruct (settle_cases b src got s) as [[-> _]|(file & _ & _ & Hc & -> & _)];
    [done|].
  split; [by apply keyed_snoc|].
  rewrite keys_app. simpl. apply NoDup_app. split; [done|].
  split; [|apply NoDup_singleton].
  intros url Hin Hin'. apply list_elem_of_singleton in Hin' as ->.
  by apply contains_false in Hc.
Qed.

Section Invariants.

Variable origin : string.
Variable getVersionedPackageUrl : string → string → string → string.

Lemma step_wellFormed (s : State) (input : Input) :
  wellFormed s → wellFormed (step origin getVersionedPackageUrl s input).
Proof.
  intros Hwf. destruct input as [payload|b|i result b].
  - destruct (desiredLocators origin getVersionedPackageUrl payload)
      as [D|e] eqn:HD.
    + destruct (updateAlive s) eqn:Ha.
      * destruct (dispatch_reconciles origin getVersionedPackageUrl s payload D
                    Ha Hwf HD) as (H1 & _).
        unfold wellFormed. rewrite H1. destruct Hwf as [Hk Hnd].
        by apply (wellFormed_sub _ (_current s)); [apply filter_sublist| |].
      * simpl. unfold updateIntellisense. by rewrite Ha.
    + destruct (desiredLocators_throw _ _ _ _ HD) as [_ ->].
      by destruct (updateAlive s).
  - simpl.
    destruct (monacoReady_cases b s)
      as [->|[(w & rest & content & _ & _ & ->)|(w & rest & _ & _ & ->)]];
      [done| |done].
    by apply settle_wellFormed.
  - simpl.
    destruct (response_cases i result b s)
      as [->|[(w & content & _ & _ & ->)|(w & e & _ & _ & ->)]];
      [done| |done].
    by apply settle_wellFormed.
Qed.

(** X7. In every state that a session reaches, whatever is dispatched and
    however requests and registrations end, no locator has two active
    registrations and every registration is stored under its own [url]. *)
Theorem X7_one_registration_a_locator (cache : gmap string string)
    (inputs : list Input) :
  let s := run origin getVersionedPackageUrl (initial cache) inputs in
  NoDup (Dictionary.keys (_current s))
  ∧ ∀ key file, (key, file) ∈ _current s → disposable_url file = key.
Proof.
  intros s.
  assert (wellFormed s) as [Hk Hnd]; [|done].
  unfold s, run.
  assert (wellFormed (initial cache)) as Hwf.
  { split; [|apply NoDup_nil_2]. intros k f Hin. by apply elem_of_nil in Hin. }
  revert Hwf. generalize (initial cache) as s0.
  induction inputs as [|input inputs IH]; intros s0 Hwf; [done|].
  simpl. apply IH. by apply step_wellFormed.
Qed.

End Invariants.

(** ** Handles *)

Lemma returned_app es1 es2 : returned (es1 ++ es2) = returned es1 ++ returned es2.
Proof. apply omap_app. Qed.

Lemma returned_disposals (l : list IDisposableFile) :
  returned ((λ f, Dispose (disposable f)) <$> l) = [].
Proof. induction l as [|f l IH]; [done|]. simpl. exact IH. Qed.

Lemma settle_nextHandle b src got s :
  nextHandle (_addIntellisense_settle b src got s)
  = match got, b with
    | Ok _, true => S (nextHandle s)
    | _, _ => nextHandle s
    end.
Proof.
  destruct got as [file|e]; [|done]. destruct b; [|done].
  unfold _addIntellisense_settle, _addIntellisense_map. simpl.
  by destruct (Dictionary.add _ _ _).
Qed.

Lemma settle_returned b src got s :
  returned (calls (_addIntellisense_settle b src got s))
  = returned (calls s)
    ++ match got, b with
       | Ok _, true => [nextHandle s]
       | _, _ => []
       end.
Proof.
  destruct got as [file|e]; [|simpl; by rewrite app_nil_r].
  rewrite settle_calls_ok, returned_app. by destruct b.
Qed.

(** The registrations that stay and those that go make up the
    registrations there were. *)
Lemma values_partition (D : list string) (d : Dictionary.t IDisposableFile) :
  keyed d →
  Dictionary.values d
  ≡ₚ noLongerDesired D d ++ Dictionary.values (stillDesired D d).
Proof.
  unfold noLongerDesired, stillDesired, notIncluded.
  induction d as [|[k f] d IH]; intros Hk; [done|].
  assert (disposable_url f = k) as Hf by (apply Hk, elem_of_cons; by left).
  cbn [Dictionary.values fmap list_fmap List.filter snd fst]. rewrite Hf.
  specialize (IH (keyed_tail _ _ _ Hk)).
  destruct (bool_decide (k ∈ D)); cbn [negb].
  - etrans; [|apply Permutation_middle]. by constructor.
  - by constructor.
Qed.

Lemma settle_handlesDistinct b src got s :
  handlesDistinct s → handlesDistinct (_addIntellisense_settle b src got s).
Proof.
  intros (Hnd & Hlt & Hret). unfold handlesDistinct, tracked.
  rewrite settle_disposes, settle_returned, settle_nextHandle.
  destruct (settle_cases b src got s)
    as [[-> Hn]|(file & -> & -> & Hc & -> & Hn)].
  - split; [done|].
    assert ((nextHandle s
             ≤ match got, b with Ok _, true => S (nextHandle s) | _, _ => nextHandle s end)%nat)
      as Hle by (destruct got, b; lia).
    split; [intros h Hin; specialize (Hlt h Hin); lia|].
    destruct got as [file|e]; [destruct b|]; rewrite Hret, ?app_nil_r; try done.
    by rewrite seq_S.
  - unfold Dictionary.values. rewrite fmap_app, fmap_app. simpl.
    rewrite app_assoc. fold (Dictionary.values (_current s)). fold (tracked s).
    split; [|split].
    + apply NoDup_app. split; [done|]. split; [|apply NoDup_singleton].
      intros h Hin Hin'. apply list_elem_of_singleton in Hin' as ->.
      specialize (Hlt _ Hin). lia.
    + intros h Hin. apply elem_of_app in Hin as [Hin|Hin].
      * specialize (Hlt _ Hin). lia.
      * apply list_elem_of_singleton in Hin as ->. lia.
    + rewrite Hret.
      change (0 :: seq 1 (nextHandle s)) with (seq 0 (S (nextHandle s))).
      by rewrite seq_S.
Qed.

Section Handles.

Variable origin : string.
Variable getVersionedPackageUrl : string → string → string → string.

(** One transition tracks the handles it tracked before and at most the one
    that [addExtraLib] has just returned. *)
Lemma step_handles (s : State) (input : Input) :
  wellFormed s →
  handlesDistinct s →
  let s' := step origin getVersionedPackageUrl s input in
  handlesDistinct s'
  ∧ (nextHandle s ≤ nextHandle s')%nat
  ∧ ∀ h, h ∈ tracked s' → h ∈ tracked s ∨ h = nextHandle s.
Proof.
  intros Hwf Hd s'.
  assert (∀ t : State,
            tracked t = tracked s → nextHandle t = nextHandle s →
            returned (calls t) = returned (calls s) →
            handlesDistinct t ∧ (nextHandle s ≤ nextHandle t)%nat
            ∧ ∀ h, h ∈ tracked t → h ∈ tracked s ∨ h = nextHandle s) as Hsame.
  { intros t Ht Hn Hr. unfold handlesDistinct. rewrite Ht, Hn, Hr.
    split; [done|]. split; [lia|]. intros h Hin. by left. }
  assert (∀ b src got (t : State),
            tracked t = tracked s → nextHandle t = nextHandle s →
            returned (calls t) = returned (calls s) →
            let t' := _addIntellisense_settle b src got t in
            handlesDistinct t' ∧ (nextHandle s ≤ nextHandle t')%nat
            ∧ ∀ h, h ∈ tracked t' → h ∈ tracked s ∨ h = nextHandle s) as Hsettle.
  { intros b src got t Ht Hn Hr t'.
    destruct (Hsame t Ht Hn Hr) as (Hdt & _ & _).
    split; [by apply settle_handlesDistinct|].
    unfold t'. rewrite settle_nextHandle.
    split; [destruct got, b; lia|].
    unfold tracked at 1. rewrite settle_disposes.
    destruct (settle_cases b src got t)
      as [[-> _]|(file & _ & _ & _ & -> & _)].
    - fold (tracked t). rewrite Ht. intros h Hin. by left.
    - unfold Dictionary.values. rewrite fmap_app, fmap_app, app_assoc. simpl.
      fold (Dictionary.values (_current t)). fold (tracked t). rewrite Ht, Hn.
      intros h Hin. apply elem_of_app in Hin as [Hin|Hin]; [by left|].
      apply list_elem_of_singleton in Hin. by right. }
  destruct input as [payload|b|i result b].
  - destruct (desiredLocators origin getVersionedPackageUrl payload)
      as [D|e] eqn:HD.
    + destruct (updateAlive s) eqn:Ha.
      * destruct (dispatch_reconciles origin getVersionedPackageUrl s payload D
                    Ha Hwf HD) as (H1 & H2 & _ & _ & _ & H6 & _).
        fold s' in H1, H2, H6.
        assert (tracked s' ≡ₚ tracked s) as Hperm.
        { unfold tracked. rewrite H1, H2, disposes_app, disposes_disposals.
          rewrite <- app_assoc. apply Permutation_app_head.
          rewrite <- fmap_app. apply fmap_Permutation. symmetry.
          apply values_partition. apply Hwf. }
        destruct Hd as (Hnd & Hlt & Hret). unfold handlesDistinct.
        rewrite H6, H2, returned_app, returned_disposals, app_nil_r.
        split; [split; [by rewrite Hperm|split; [|done]]|].
        { intros h Hin. apply Hlt. by rewrite <- Hperm. }
        split; [lia|]. intros h Hin. left. by rewrite <- Hperm.
      * apply Hsame; unfold s'; simpl; unfold updateIntellisense; by rewrite Ha.
    + unfold s'. destruct (desiredLocators_throw _ _ _ _ HD) as [_ ->].
      destruct (updateAlive s); by apply Hsame.
  - unfold s'. simpl.
    destruct (monacoReady_cases b s)
      as [->|[(w & rest & content & _ & _ & ->)|(w & rest & _ & _ & ->)]].
    + by apply Hsame.
    + by apply Hsettle.
    + apply Hsame; try done.
      * unfold tracked. simpl. by rewrite disposes_app, app_nil_r.
      * simpl. by rewrite returned_app, app_nil_r.
  - unfold s'. simpl.
    destruct (response_cases i result b s)
      as [->|[(w & content & _ & _ & ->)|(w & e & _ & _ & ->)]].
    + by apply Hsame.
    + by apply Hsettle.
    + by apply Hsame.
Qed.

Lemma run_handles (s : State) (inputs : list Input) :
  wellFormed s →
  handlesDistinct s →
  let s' := run origin getVersionedPackageUrl s inputs in
  wellFormed s'
  ∧ handlesDistinct s'
  ∧ (nextHandle s ≤ nextHandle s')%nat
  ∧ ∀ h, h ∈ tracked s' → h ∈ tracked s ∨ (nextHandle s ≤ h)%nat.
Proof.
  unfold run. revert s.
  induction inputs as [|input inputs IH]; intros s Hwf Hd.
  - simpl. split; [done|]. split; [done|]. split; [lia|].
    intros h Hin. by left.
  - simpl.
    destruct (step_handles s input Hwf Hd) as (Hd1 & Hle1 & Hin1).
    pose proof (step_wellFormed origin getVersionedPackageUrl s input Hwf) as Hwf1.
    destruct (IH _ Hwf1 Hd1) as (Hwf2 & Hd2 & Hle2 & Hin2).
    split; [done|]. split; [done|]. split; [lia|].
    intros h Hin. destruct (Hin2 h Hin) as [Hin'|Hle]; [|right; lia].
    destruct (Hin1 h Hin') as [?| ->]; [by left|right; lia].
Qed.

Lemma initial_handles (cache : gmap string string) :
  wellFormed (initial cache) ∧ handlesDistinct (initial cache).
Proof.
  split; [split|split; [|split]]; try done.
  - intros k f Hin. by apply elem_of_nil in Hin.
  - apply NoDup_nil_2.
  - apply NoDup_nil_2.
  - intros h Hin. by apply elem_of_nil in Hin.
Qed.

(** X8. In every state that a session reaches, [dispose] has been called at
    most once on any handle, only on handles that [addExtraLib] returned,
    and on none that an active registration holds; and no two active
    registrations hold the same handle. *)
Theorem X8_no_handle_disposed_twice (cache : gmap string string)
    (inputs : list Input) :
  let s := run origin getVersionedPackageUrl (initial cache) inputs in
  NoDup (disposes (calls s))
  ∧ NoDup (disposable <$> Dictionary.values (_current s))
  ∧ (∀ h, h ∈ disposes (calls s) → h ∈ returned (calls s))
  ∧ (∀ file, file ∈ Dictionary.values (_current s) →
             disposable file ∉ disposes (calls s)).
Proof.
  intros s. destruct (initial_handles cache) as [Hwf Hd].
  destruct (run_handles (initial cache) inputs Hwf Hd)
    as (_ & (Hnd & Hlt & Hret) & _ & _).
  fold s in Hnd, Hlt, Hret. unfold tracked in *.
  apply NoDup_app in Hnd as (Hnd1 & Hdis & Hnd2).
  split; [done|]. split; [done|]. split.
  - intros h Hin. rewrite Hret. apply elem_of_seq. split; [lia|].
    simpl. apply Hlt. apply elem_of_app. by left.
  - intros file Hin Hin'. apply (Hdis _ Hin'). by apply list_elem_of_fmap_2.
Qed.

(** X9. A handle that [addExtraLib] returned and that is neither disposed
    of nor held by an active registration, as after a registration whose
    locator was registered already, is never disposed of, whatever happens
    to the session afterwards. *)
Theorem X9_orphaned_handle_never_disposed (cache : gmap string string)
    (before after : list Input) (h : nat) :
  let s := run origin getVersionedPackageUrl (initial cache) before in
  h ∈ returned (calls s) →
  h ∉ disposes (calls s) →
  h ∉ disposable <$> Dictionary.values (_current s) →
  h ∉ disposes (calls (run origin getVersionedPackageUrl s after)).
Proof.
  intros s Hret Hnd Hna Hin.
  destruct (initial_handles cache) as [Hwf Hd].
  destruct (run_handles (initial cache) before Hwf Hd)
    as (Hwf1 & Hd1 & _ & _).
  fold s in Hwf1, Hd1.
  destruct (run_handles s after Hwf1 Hd1) as (_ & _ & _ & Hold).
  destruct (Hold h) as [Hin'|Hle].
  - apply elem_of_app. by left.
  - apply elem_of_app in Hin' as [?|?]; done.
  - destruct Hd1 as (_ & _ & Hr). rewrite Hr in Hret.
    apply elem_of_seq in Hret. lia.
Qed.

End Handles.

(** ** Invariants of the states that a session reaches *)

Lemma settle_registers_ok b src file s :
  registers (calls (_addIntellisense_settle b src (Ok file) s))
  = registers (calls s) ++ [file_url file].
Proof. by rewrite settle_calls_ok, registers_app. Qed.

Lemma filter_isAdd_adds (D : list string) (language : string) :
  List.filter isAdd ((λ file, AddIntellisenseAction file language) <$> D)
  = (λ file, AddIntellisenseAction file language) <$> D.
Proof. induction D as [|x D IH]; [done|]. simpl. f_equal. exact IH. Qed.

Lemma filter_isSuccess_adds (D : list string) (language : string) :
  List.filter isSuccess ((λ file, AddIntellisenseAction file language) <$> D) = [].
Proof. induction D as [|x D IH]; [done|]. simpl. exact IH. Qed.

Section Reachable.

Variable origin : string.
Variable getVersionedPackageUrl : string → string → string → string.

(** A property of the fresh session that every transition keeps on
    well-formed registrations holds of every state reached. *)
Lemma reachable_ind (P : State → Prop) :
  (∀ cache, P (initial cache)) →
  (∀ s input, wellFormed s → P s →
              P (step origin getVersionedPackageUrl s input)) →
  ∀ cache inputs, P (run origin getVersionedPackageUrl (initial cache) inputs).
Proof.
  intros Hinit Hstep cache inputs. unfold run.
  assert (wellFormed (initial cache) ∧ P (initial cache)) as H.
  { split; [apply initial_handles|apply Hinit]. }
  revert H. generalize (initial cache) as s.
  induction inputs as [|input inputs IH]; intros s [Hwf HP]; [done|].
  simpl. apply IH. split; [by apply step_wellFormed|by apply Hstep].
Qed.

Lemma step_balanced (s : State) (input : Input) :
  wellFormed s → balanced s →
  balanced (step origin getVersionedPackageUrl s input).
Proof.
  unfold balanced. intros Hwf Hb. destruct input as [payload|b|i result b].
  - destruct (desiredLocators origin getVersionedPackageUrl payload)
      as [D|e] eqn:HD.
    + destruct (updateAlive s) eqn:Ha.
      * destruct (dispatch_reconciles origin getVersionedPackageUrl s payload D
                    Ha Hwf HD) as (_ & _ & -> & -> & _ & _ & _ & ->).
        rewrite !List.filter_app, !length_app, filter_isAdd_adds,
          filter_isSuccess_adds, !length_fmap. simpl. lia.
      * simpl. unfold updateIntellisense. by rewrite Ha.
    + destruct (desiredLocators_throw _ _ _ _ HD) as [_ ->].
      destruct (updateAlive s); [|done]. simpl.
      rewrite !List.filter_app, !length_app. simpl. lia.
  - simpl.
    destruct (waiting s) as [|w rest] eqn:Hw;
      [unfold monacoReady; rewrite Hw; simpl; by rewrite Hw|].
    destruct (intellisenseCache s !! waiting_url w) as [content|] eqn:Hc.
    + rewrite (monacoReady_hit s w rest b content Hw Hc).
      rewrite settle_dispatched, settle_waiting, settle_inflight.
      rewrite !List.filter_app, !length_app. simpl in *. lia.
    + rewrite (monacoReady_miss s w rest b Hw Hc). simpl.
      rewrite length_app. simpl in *. lia.
  - simpl. destruct (inflight s !! i) as [w|] eqn:Hi;
      [|unfold response; by rewrite Hi].
    pose proof (length_delete (inflight s) i (mk_is_Some _ _ Hi)) as Hlen.
    assert (0 < length (inflight s)) as Hpos
      by (apply lookup_lt_Some in Hi; lia).
    destruct result as [content|e].
    + rewrite (response_ok s i w content b Hi).
      rewrite settle_dispatched, settle_waiting, settle_inflight.
      rewrite !List.filter_app, !length_app. simpl. lia.
    + rewrite (response_failure_isolated s i w e b Hi). simpl.
      rewrite !List.filter_app, !length_app. simpl. lia.
Qed.

Lemma settle_registeredCached b src file (s : State) :
  is_Some (intellisenseCache s !! file_url file) →
  registeredCached s →
  registeredCached (_addIntellisense_settle b src (Ok file) s).
Proof.
  intros Hc [Hk Hr]. unfold registeredCached.
  rewrite settle_registers_ok, settle_cache. split.
  - intros url Hin. apply elem_of_app.
    destruct (settle_cases b src (Ok file) s)
      as [[Hcur _]|(file' & [= <-] & _ & _ & Hcur & _)]; rewrite Hcur in Hin.
    + left. by apply Hk.
    + rewrite keys_app in Hin. apply elem_of_app in Hin as [Hin|Hin].
      * left. by apply Hk.
      * right. exact Hin.
  - intros url Hin. apply elem_of_app in Hin as [Hin|Hin]; [by apply Hr|].
    by apply list_elem_of_singleton in Hin as ->.
Qed.

Lemma step_registeredCached (s : State) (input : Input) :
  wellFormed s → registeredCached s →
  registeredCached (step origin getVersionedPackageUrl s input).
Proof.
  intros Hwf [Hk Hr]. destruct input as [payload|b|i result b].
  - destruct (desiredLocators origin getVersionedPackageUrl payload)
      as [D|e] eqn:HD.
    + destruct (updateAlive s) eqn:Ha.
      * destruct (dispatch_reconciles origin getVersionedPackageUrl s payload D
                    Ha Hwf HD) as (H1 & H2 & _ & _ & _ & _ & H7 & _).
        unfold registeredCached.
        rewrite H1, H2, H7, registers_app, registers_disposals, app_nil_r.
        split; [|done]. intros url Hin. apply Hk.
        by apply keys_stillDesired in Hin as [Hin _].
      * simpl. unfold updateIntellisense. by rewrite Ha.
    + destruct (desiredLocators_throw _ _ _ _ HD) as [_ ->].
      by destruct (updateAlive s).
  - simpl.
    destruct (monacoReady_cases b s)
      as [->|[(w & rest & content & _ & Hc & ->)|(w & rest & _ & _ & ->)]].
    + done.
    + apply settle_registeredCached; [by eexists|done].
    + unfold registeredCached. simpl. by rewrite registers_app, app_nil_r.
  - simpl.
    destruct (response_cases i result b s)
      as [->|[(w & content & _ & _ & ->)|(w & e & _ & _ & ->)]]; [done| |done].
    apply settle_registeredCached; simpl.
    + rewrite lookup_insert_eq. by eexists.
    + split; [done|]. intros url Hin. simpl.
      destruct (decide (waiting_url w = url)) as [->|Hne].
      * rewrite lookup_insert_eq. by eexists.
      * rewrite lookup_insert_ne by done. by apply Hr.
Qed.

(** X12. In every state that a session reaches, the locator of every
    active registration has been passed to [addExtraLib] and its content is
    in the cache, so that a request for it is never sent again. *)
Theorem X12_registered_is_cached (cache : gmap string string)
    (inputs : list Input) (url : string) :
  let s := run origin getVersionedPackageUrl (initial cache) inputs in
  url ∈ Dictionary.keys (_current s) →
  url ∈ registers (calls s)
  ∧ is_Some (intellisenseCache s !! url)
  ∧ (_get url s).1 = s.
Proof.
  intros s Hin.
  assert (registeredCached s) as [Hk Hr].
  { apply (reachable_ind registeredCached); [|apply step_registeredCached].
    intros c. split; intros u Hu; by apply elem_of_nil in Hu. }
  pose proof (Hr url (Hk url Hin)) as Hc.
  split; [by apply Hk|]. split; [done|].
  unfold _get. by rewrite bool_decide_eq_true_2.
Qed.

End Reachable.

(** ** After [updateIntellisense$] has completed *)

Section Completed.

Variable origin : string.
Variable getVersionedPackageUrl : string → string → string → string.

Lemma step_completed (s : State) (input : Input) :
  updateAlive s = false →
  let s' := step origin getVersionedPackageUrl s input in
  updateAlive s' = false
  ∧ disposes (calls s') = disposes (calls s)
  ∧ (isDispatch input = true → s' = s).
Proof.
  intros Ha s'. unfold s'. destruct input as [payload|b|i result b]; simpl.
  - unfold updateIntellisense. by rewrite Ha.
  - destruct (monacoReady_cases b s)
      as [->|[(w & rest & content & _ & _ & ->)|(w & rest & _ & _ & ->)]].
    + done.
    + by rewrite settle_alive, settle_disposes.
    + simpl. by rewrite disposes_app, app_nil_r.
  - destruct (response_cases i result b s)
      as [->|[(w & content & _ & _ & ->)|(w & e & _ & _ & ->)]].
    + done.
    + by rewrite settle_alive, settle_disposes.
    + done.
Qed.

(** X13. Once [updateIntellisense$] has completed, which its [catch] brings
    about, every later [UPDATE_INTELLISENSE] is lost: the session goes on as
    if none had been dispatched, so the stream stays completed and no
    registration is disposed of any more. *)
Theorem X13_completed_stream_ignores_updates (s : State) (inputs : list Input) :
  updateAlive s = false →
  let s' := run origin getVersionedPackageUrl s inputs in
  s' = run origin getVersionedPackageUrl s
         (List.filter (λ input, negb (isDispatch input)) inputs)
  ∧ updateAlive s' = false
  ∧ disposes (calls s') = disposes (calls s).
Proof.
  unfold run. revert s.
  induction inputs as [|input inputs IH]; intros s Ha; [done|].
  destruct (step_completed s input Ha) as (Ha' & Hd & Hsame).
  destruct (IH _ Ha') as (H1 & H2 & H3).
  cbn [foldl List.filter]. rewrite H2, H3, Hd.
  split; [|done]. rewrite H1.
  destruct (isDispatch input) eqn:Hi; simpl; [by rewrite Hsame|done].
Qed.

End Completed.

(** ** The requests of one pass *)

Section Requests.

Variable origin : string.
Variable getVersionedPackageUrl : string → string → string → string.




End Requests.

(** ** Where a pass ends *)

Section Convergence.

Variable origin : string.
Variable getVersionedPackageUrl : string → string → string → string.





End Convergence.

(** ** The further properties at work on the sample session *)

Lemma run_wellFormed (origin : string)
    (getVersionedPackageUrl : string → string → string → string)
    (s : State) (inputs : list Input) :
  wellFormed s → wellFormed (run origin getVersionedPackageUrl s inputs).
Proof.
  unfold run. revert s.
  induction inputs as [|input inputs IH]; intros s Hwf; [done|].
  simpl. apply IH. by apply step_wellFormed.
Qed.

Lemma scriptSession_wellFormed :
  wellFormed (run sampleOrigin sampleVersionedPackageUrl (initial ∅) scriptSession).
Proof. apply run_wellFormed, initial_handles. Qed.

Lemma X6_dispatch_keeps_desired_witness :
  let s := run sampleOrigin sampleVersionedPackageUrl (initial ∅) scriptSession in
  let s' := step sampleOrigin sampleVersionedPackageUrl s
              (Dispatch customFunctionsPayload) in
  _current s' = []
  ∧ disposes (calls s') = [0]
  ∧ fetches (calls s') = fetches (calls s).
Proof.
  intros s.
  destruct (X6_dispatch_keeps_desired sampleOrigin sampleVersionedPackageUrl s
              customFunctionsPayload
              [lodash; customFunctionsDeclarations; officeDeclarations])
    as (H1 & H2 & H3 & _).
  - vm_compute. reflexivity.
  - apply scriptSession_wellFormed.
  - vm_compute. reflexivity.
  - split; [exact H1|]. split; [exact H2|exact H3].
Defined.

Lemma X9_orphaned_handle_never_disposed_witness :
  let s := run sampleOrigin sampleVersionedPackageUrl (initial ∅) repeatedSession in
  returned (calls s) = [0; 1]
  ∧ Dictionary.values (_current s)
    = [{| disposable_url := authHelpers; disposable := 0 |}]
  ∧ (1 ∉ disposes
           (calls (run sampleOrigin sampleVersionedPackageUrl s
                     [Dispatch customFunctionsPayload]))).
Proof.
  intros s. split; [vm_compute; reflexivity|]. split; [vm_compute; reflexivity|].
  apply (X9_orphaned_handle_never_disposed sampleOrigin sampleVersionedPackageUrl
           ∅ repeatedSession [Dispatch customFunctionsPayload] 1);
    apply (bool_decide_unpack _); vm_compute; exact I.
Defined.

Lemma X12_registered_is_cached_witness :
  let s := run sampleOrigin sampleVersionedPackageUrl (initial ∅) scriptSession in
  authHelpers ∈ registers (calls s)
  ∧ is_Some (intellisenseCache s !! authHelpers)
  ∧ (_get authHelpers s).1 = s.
Proof.
  apply (X12_registered_is_cached sampleOrigin sampleVersionedPackageUrl ∅
           scriptSession authHelpers).
  apply (bool_decide_unpack _). vm_compute. exact I.
Defined.

Lemma X13_completed_stream_ignores_updates_witness :
  let s := step sampleOrigin sampleVersionedPackageUrl (initial ∅)
             (Dispatch stylePayload) in
  let s' := run sampleOrigin sampleVersionedPackageUrl s scriptSession in
  s' = run sampleOrigin sampleVersionedPackageUrl s
         [MonacoReady true; Response 0 (Ok "declare var x: number;") true]
  ∧ updateAlive s' = false
  ∧ disposes (calls s') = disposes (calls s).
Proof.
  intros s.
  apply (X13_completed_stream_ignores_updates sampleOrigin
           sampleVersionedPackageUrl s scriptSession).
  reflexivity.
Defined.



(** * Requests for one locator while none has been answered *)

Lemma asked_app l1 l2 : asked (l1 ++ l2) = asked l1 ++ asked l2.
Proof. apply omap_app. Qed.

Lemma asked_adds (D : list string) (language : string) :
  asked ((λ file, AddIntellisenseAction file language) <$> D) = D.
Proof. induction D as [|x D IH]; [done|]. simpl. f_equal. exact IH. Qed.


Lemma occurrences_cons (url x : string) (l : list string) :
  occurrences url (x :: l)
  = (if String.eqb url x then 1 else 0) + occurrences url l.
Proof. unfold occurrences. simpl. by destruct (String.eqb url x). Qed.

Section NoCollapse.

Variable origin : string.
Variable getVersionedPackageUrl : string → string → string → string.

(** As long as a locator is not in the cache, every add for it either waits
    for the editor or has sent a request of its own. *)
Lemma step_requests (url : string) (s : State) (input : Input) :
  wellFormed s →
  let s' := step origin getVersionedPackageUrl s input in
  cached s' url = false →
  occurrences url (fetches (calls s'))
  + occurrences url (waiting_url <$> waiting s')
  + occurrences url (asked (dispatched s))
  = occurrences url (fetches (calls s))
    + occurrences url (waiting_url <$> waiting s)
    + occurrences url (asked (dispatched s')).
Proof.
  intros Hwf s' Hc. unfold s' in *. clear s'.
  destruct input as [payload|b|i result b].
  - destruct (desiredLocators origin getVersionedPackageUrl payload)
      as [D|e] eqn:HD.
    + destruct (updateAlive s) eqn:Ha.
      * destruct (dispatch_reconciles origin getVersionedPackageUrl s payload D
                    Ha Hwf HD) as (_ & -> & -> & _ & _ & _ & _ & ->).
        rewrite fetches_app, fetches_disposals, app_nil_r, fmap_app, asked_app,
          asked_adds, !occurrences_app, <- list_fmap_compose.
        replace ((_ ∘ _) <$> D) with D
          by (rewrite <- (list_fmap_id D) at 1; by apply list_fmap_ext).
        lia.
      * simpl. unfold updateIntellisense. by rewrite Ha.
    + destruct (desiredLocators_throw _ _ _ _ HD) as [_ ->].
      destruct (updateAlive s); [|done]. simpl.
      rewrite asked_app. simpl. by rewrite app_nil_r.
  - simpl in *.
    destruct (waiting s) as [|w rest] eqn:Hw;
      [unfold monacoReady; rewrite Hw; simpl; by rewrite Hw|].
    destruct (intellisenseCache s !! waiting_url w) as [content|] eqn:Hcw.
    + rewrite (monacoReady_hit s w rest b content Hw Hcw) in *.
      rewrite settle_fetches, settle_waiting, settle_dispatched, asked_app.
      simpl. rewrite app_nil_r.
      assert (waiting_url w ≠ url) as Hne.
      { intros <-. unfold cached in Hc. rewrite settle_cache in Hc. simpl in Hc.
        apply bool_decide_eq_false in Hc. apply Hc. by eexists. }
      rewrite occurrences_cons.
      assert (url ≠ waiting_url w) as Hne' by done.
      apply String.eqb_neq in Hne'. rewrite Hne'. reflexivity.
    + rewrite (monacoReady_miss s w rest b Hw Hcw). simpl.
      rewrite fetches_app, occurrences_app. simpl.
      rewrite !occurrences_cons. change (occurrences url []) with 0.
      change (list_fmap Waiting string waiting_url rest)
        with (waiting_url <$> rest).
      destruct (String.eqb url (waiting_url w)); lia.
  - simpl.
    destruct (response_cases i result b s)
      as [->|[(w & content & _ & _ & ->)|(w & e & _ & _ & ->)]]; [done| |].
    + rewrite settle_fetches, settle_waiting, settle_dispatched, asked_app.
      simpl. by rewrite app_nil_r.
    + simpl. rewrite asked_app. simpl. by rewrite app_nil_r.
Qed.

Lemma run_requests (url : string) (s : State) (inputs : list Input) :
  wellFormed s →
  let s' := run origin getVersionedPackageUrl s inputs in
  cached s' url = false →
  occurrences url (fetches (calls s'))
  + occurrences url (waiting_url <$> waiting s')
  + occurrences url (asked (dispatched s))
  = occurrences url (fetches (calls s))
    + occurrences url (waiting_url <$> waiting s)
    + occurrences url (asked (dispatched s')).
Proof.
  revert s. induction inputs as [|input inputs IH]; intros s Hwf; cbv zeta;
    [done|].
  change (run origin getVersionedPackageUrl s (input :: inputs))
    with (run origin getVersionedPackageUrl
            (step origin getVersionedPackageUrl s input) inputs).
  intros Hc.
  assert (cached (step origin getVersionedPackageUrl s input) url = false) as Hc1.
  { apply bool_decide_eq_false. intros Hsome.
    apply (run_cache_is_Some origin getVersionedPackageUrl _ inputs) in Hsome.
    unfold cached in Hc. by apply bool_decide_eq_false in Hc. }
  pose proof (step_requests url s input Hwf Hc1) as H1.
  pose proof (IH _ (step_wellFormed origin getVersionedPackageUrl s input Hwf) Hc)
    as H2.
  cbv zeta in H1, H2. lia.
Qed.


End NoCollapse.


(** Two passes for the same libraries, the second dispatched before any
    add of the first has started. *)
Example two_passes_of_lodash :
  let s1 := run sampleOrigin sampleVersionedPackageUrl (initial ∅)
              [Dispatch lodashPayload; Dispatch lodashPayload;
               MonacoReady true; MonacoReady true;
               MonacoReady true; MonacoReady true] in
  let s2 := run sampleOrigin sampleVersionedPackageUrl s1
              [Response 2 (Ok "declare var _: any;") true;
               Response 0 (Ok "declare var _: any;") true;
               Response 0 (Ok "declare var x: number;") true;
               Response 0 (Ok "declare var x: number;") true] in
  occurrences lodash (fetches (calls s1)) + 0
  = 0 + occurrences lodash (asked (dispatched s1))
  ∧ occurrences lodash (asked (dispatched s1)) = 2
  ∧ occurrences lodash (Dictionary.keys (_current s2)) = 1.
Proof.
  intros s1 s2. split; [|split; vm_compute; reflexivity].
  assert (cached s1 lodash = false) as Hc by (vm_compute; reflexivity).
  assert (waiting s1 = []) as Hw by (vm_compute; reflexivity).
  pose proof (run_requests sampleOrigin sampleVersionedPackageUrl lodash
                (initial ∅)
                [Dispatch lodashPayload; Dispatch lodashPayload;
                 MonacoReady true; MonacoReady true;
                 MonacoReady true; MonacoReady true]
                (proj1 (initial_handles ∅)) Hc) as H.
  fold s1 in H. rewrite Hw in H.
  change (occurrences lodash (fetches (calls (initial ∅)))) with 0 in H.
  change (occurrences lodash (waiting_url <$> waiting (initial ∅))) with 0 in H.
  change (occurrences lodash (asked (dispatched (initial ∅)))) with 0 in H.
  change (occurrences lodash (waiting_url <$> [])) with 0 in H.
  lia.
Qed.

(** One pass that names the same library twice. *)
Example one_pass_naming_lodash_twice :
  let s1 := run sampleOrigin sampleVersionedPackageUrl (initial ∅)
              [Dispatch twiceLodashPayload; MonacoReady true; MonacoReady true] in
  occurrences lodash (asked (dispatched s1)) = 2
  ∧ fetches (calls s1) = [lodash; lodash].
Proof. vm_compute. by split. Qed.

(** * Sessions that begin before the editor is loaded *)

Lemma reportsOf_app message l1 l2 :
  reportsOf message (l1 ++ l2) = reportsOf message l1 ++ reportsOf message l2.
Proof. apply List.filter_app. Qed.

(** What the [map] of [updateIntellisense$] does on well-formed
    registrations: it throws for the tab name before it touches anything, or
    disposes of what is no longer wanted and hands the files on. *)
Lemma updateIntellisense_map_cases (origin : string)
    (getVersionedPackageUrl : string → string → string → string)
    (payload : Payload) (s : State) :
  wellFormed s →
  updateIntellisense_map origin getVersionedPackageUrl payload s
  = (s, Throw InvalidTabName)
  ∨ ∃ D s1,
      updateIntellisense_map origin getVersionedPackageUrl payload s
      = (s1, Ok (D, language payload))
      ∧ _current s1 = stillDesired D (_current s)
      ∧ calls s1
        = calls s ++ ((λ f, Dispose (disposable f)) <$> noLongerDesired D (_current s))
      ∧ waiting s1 = waiting s ∧ inflight s1 = inflight s
      ∧ updateAlive s1 = updateAlive s ∧ dispatched s1 = dispatched s.
Proof.
  intros [Hk Hnd]. unfold updateIntellisense_map.
  destruct (additionalLibraries origin getVersionedPackageUrl (tabName payload))
    as [additional|e] eqn:Hadd.
  - right.
    set (D := urlsToInclude (libraries payload) (tabName payload) additional).
    destruct (disposeUnused_filtered D (_current s) [] s eq_refl Hk Hnd)
      as (H1 & H2 & H3).
    pose proof (disposeUnused_rest (noLongerDesired D (_current s)) s)
      as (H4 & H5 & H6 & H7 & _).
    fold (noLongerDesired D (_current s)).
    destruct (disposeUnused (noLongerDesired D (_current s)) s) as [s1 o].
    simpl in *. subst o. exists D, s1. by repeat split.
  - left. unfold additionalLibraries in Hadd.
    destruct (String.eqb (tabName payload) "script"); [done|].
    destruct (String.eqb (tabName payload) "customFunctions"); [done|].
    by injection Hadd as <-.
Qed.

Lemma response_none (i : nat) (result : Result string) (b : bool) (s : State) :
  inflight s = [] → response i result b s = s.
Proof. intros H. unfold response. by rewrite H. Qed.

(** The reports and the life of [updateIntellisense$] when the editor is
    ready or a request is answered. *)
Lemma monacoReady_reports (b : bool) (s : State) (message : Message) :
  reportsOf message (dispatched (monacoReady b s))
  = reportsOf message (dispatched s)
  ∧ updateAlive (monacoReady b s) = updateAlive s.
Proof.
  destruct (monacoReady_cases b s)
    as [->|[(w & rest & content & _ & _ & ->)|(w & rest & _ & _ & ->)]];
    [done| |done].
  rewrite settle_dispatched, settle_alive, reportsOf_app. simpl.
  by rewrite app_nil_r.
Qed.

Lemma response_reports (i : nat) (result : Result string) (b : bool) (s : State)
    (message : Message) :
  reportsOf message (dispatched (response i result b s))
  = reportsOf message (dispatched s)
  ∧ updateAlive (response i result b s) = updateAlive s.
Proof.
  destruct (response_cases i result b s)
    as [->|[(w & content & _ & _ & ->)|(w & e & _ & _ & ->)]]; [done| |].
  - rewrite settle_dispatched, settle_alive, reportsOf_app. simpl.
    by rewrite app_nil_r.
  - simpl. by rewrite reportsOf_app, app_nil_r.
Qed.

Lemma addIntellisense_answering (file language : string) (t : Session) :
  answering t →
  answering
    (addIntellisense file language
       (with_state (emit (AddIntellisenseAction file language) (session_state t)) t)).
Proof.
  destruct t as [s d a]. unfold answering, addIntellisense, quiet, balanced.
  simpl. intros (Hwf & Hb & Hq). destruct a; simpl.
  - destruct d; simpl.
    + split; [done|]. split; [|by intros [?|?]]. intros _.
      specialize (Hb eq_refl).
      rewrite !List.filter_app, !length_app. simpl. lia.
    + split; [done|]. split; [done|]. intros _.
      destruct (Hq (or_introl eq_refl)) as (_ & _ & H3 & H4 & H5).
      rewrite !List.filter_app, H5. by simpl.
  - split; [done|]. split; [done|]. intros H.
    destruct (Hq H) as (H1 & H2 & H3 & H4 & H5).
    rewrite !List.filter_app, H5. by simpl.
Qed.

Lemma addIntellisense_reporting (file language : string) (t : Session) :
  reporting t →
  reporting
    (addIntellisense file language
       (with_state (emit (AddIntellisenseAction file language) (session_state t)) t)).
Proof.
  destruct t as [s d a]. unfold reporting, addIntellisense. simpl.
  intros (H1 & H2 & H3). destruct a; simpl.
  - destruct d; simpl.
    + rewrite !reportsOf_app, H1, H2, H3. simpl. by rewrite !app_nil_r.
    + rewrite !reportsOf_app, H1, H2, H3. simpl. by rewrite !app_nil_r.
  - rewrite !reportsOf_app, H1, H2, H3. simpl. by rewrite !app_nil_r.
Qed.

Lemma addIntellisense_wellFormed (file language : string) (t : Session) :
  wellFormed (session_state t) →
  wellFormed
    (session_state
       (addIntellisense file language
          (with_state (emit (AddIntellisenseAction file language) (session_state t))
             t))).
Proof.
  destruct t as [s d a]. unfold addIntellisense. simpl.
  destruct a; [|done]. by destruct d.
Qed.

Section Sessions.

Variable origin : string.
Variable getVersionedPackageUrl : string → string → string → string.

Lemma session_mergeMap_answering (files : list string) (language : string)
    (t : Session) :
  answering t → answering (session_mergeMap files language t).
Proof.
  unfold session_mergeMap. revert t.
  induction files as [|file files IH]; intros t Ht; [done|].
  simpl. apply IH. by apply addIntellisense_answering.
Qed.

Lemma session_mergeMap_reporting (files : list string) (language : string)
    (t : Session) :
  reporting t → reporting (session_mergeMap files language t).
Proof.
  unfold session_mergeMap. revert t.
  induction files as [|file files IH]; intros t Ht; [done|].
  simpl. apply IH. by apply addIntellisense_reporting.
Qed.

Lemma session_step_answering (t : Session) (event : Occurrence) :
  answering t → answering (session_step origin getVersionedPackageUrl t event).
Proof.
  intros Ht. pose proof Ht as (Hwf & Hb & Hq).
  destruct event as [|[payload|b|i result b]].
  - destruct t as [s d a]. unfold answering in *. simpl in *.
    split; [done|]. split; [done|]. intros [?|Ha]; [done|]. apply Hq. by right.
  - simpl. unfold session_updateIntellisense.
    destruct (updateAlive (session_state t)) eqn:Halive; [|exact Ht].
    destruct (updateIntellisense_map_cases origin getVersionedPackageUrl payload
                (session_state t) Hwf)
      as [->|(D & s1 & -> & H1 & H2 & H3 & H4 & H5 & H6)].
    + destruct t as [s d a]. unfold answering, balanced, quiet in *. simpl in *.
      split; [done|]. split.
      * intros Ha. specialize (Hb Ha).
        rewrite !List.filter_app, !length_app. simpl. lia.
      * intros H. destruct (Hq H) as (? & ? & ? & ? & Hs).
        rewrite List.filter_app, Hs. by simpl.
    + apply session_mergeMap_answering.
      destruct t as [s d a]. unfold answering, balanced, quiet in *. simpl in *.
      split.
      { unfold wellFormed. rewrite H1. destruct Hwf as [Hk Hnd].
        by apply (wellFormed_sub _ (_current s)); [apply filter_sublist| |]. }
      split.
      * intros Ha. rewrite H3, H4, H6. by apply Hb.
      * intros H. destruct (Hq H) as (Hw & Hi & Hc & Hcalls & Hs).
        rewrite H1, H2, H3, H4, H6, Hc, Hcalls. by simpl.
  - simpl. destruct (addAlive t) eqn:Ha; [|exact Ht].
    destruct (monacoDefined t) eqn:Hd; [|exact Ht]. simpl.
    destruct t as [s d a]. unfold answering. simpl in *. subst d a.
    split; [apply (step_wellFormed origin getVersionedPackageUrl s (MonacoReady b) Hwf)|].
    split; [|by intros [?|?]]. intros _.
    apply (step_balanced origin getVersionedPackageUrl s (MonacoReady b) Hwf).
    by apply Hb.
  - simpl. destruct (addAlive t) eqn:Ha; [|exact Ht].
    destruct t as [s d a]. unfold answering. simpl in *. subst a.
    split;
      [apply (step_wellFormed origin getVersionedPackageUrl s (Response i result b) Hwf)|].
    split.
    + intros _.
      apply (step_balanced origin getVersionedPackageUrl s (Response i result b) Hwf).
      by apply Hb.
    + intros H. pose proof (Hq H) as Hquiet.
      destruct Hquiet as (Hw & Hi & Hrest).
      by rewrite (response_none i result b s Hi).
Qed.

Lemma session_step_reporting (t : Session) (event : Occurrence) :
  wellFormed (session_state t) → reporting t →
  reporting (session_step origin getVersionedPackageUrl t event).
Proof.
  intros Hwf Ht. pose proof Ht as (H1 & H2 & H3).
  destruct event as [|[payload|b|i result b]].
  - by destruct t as [s d a].
  - simpl. unfold session_updateIntellisense.
    destruct (updateAlive (session_state t)) eqn:Halive; [|exact Ht].
    destruct (updateIntellisense_map_cases origin getVersionedPackageUrl payload
                (session_state t) Hwf)
      as [->|(D & s1 & -> & _ & _ & _ & _ & H5 & H6)].
    + destruct t as [s d a]. unfold reporting. simpl in *.
      rewrite !reportsOf_app, H1, H2, H3. simpl. by rewrite app_nil_r.
    + apply session_mergeMap_reporting.
      destruct t as [s d a]. unfold reporting. simpl in *.
      by rewrite H5, H6, Halive.
  - simpl. destruct (addAlive t) eqn:Ha; [|exact Ht].
    destruct (monacoDefined t) eqn:Hd; [|exact Ht]. simpl.
    destruct t as [s d a]. unfold reporting. simpl in *. subst a.
    destruct (monacoReady_reports b s intellisenseUpdateError) as [-> ->].
    destruct (monacoReady_reports b s intellisenseClearError) as [-> _].
    by destruct (monacoReady_reports b s intellisenseLoadError) as [-> _].
  - simpl. destruct (addAlive t) eqn:Ha; [|exact Ht].
    destruct t as [s d a]. unfold reporting. simpl in *. subst a.
    destruct (response_reports i result b s intellisenseUpdateError) as [-> ->].
    destruct (response_reports i result b s intellisenseClearError) as [-> _].
    by destruct (response_reports i result b s intellisenseLoadError) as [-> _].
Qed.

(** What holds when a session begins and is kept by every event holds of
    every session reached, with the editor loaded from the start or not. *)
Lemma session_reachable (cache : gmap string string) (loaded : bool)
    (events : list Occurrence) :
  let t := session_run origin getVersionedPackageUrl
             (session_initial cache loaded) events in
  answering t ∧ reporting t.
Proof.
  unfold session_run.
  assert (answering (session_initial cache loaded)
          ∧ reporting (session_initial cache loaded)) as H.
  { split; [|done]. split; [apply initial_handles|]. by split. }
  revert H. generalize (session_initial cache loaded) as t.
  induction events as [|event events IH]; intros t [Ha Hr]; [done|].
  simpl. apply IH. split; [by apply session_step_answering|].
  apply session_step_reporting; [apply Ha|done].
Qed.

(** With the editor loaded, [addIntellisense$] takes up the actions as
    [updateIntellisense_mergeMap] has it. *)
Lemma loaded_session_mergeMap (files : list string) (language : string)
    (t : Session) :
  monacoDefined t = true → addAlive t = true →
  session_mergeMap files language t
  = with_state (updateIntellisense_mergeMap files language (session_state t)) t.
Proof.
  unfold session_mergeMap, updateIntellisense_mergeMap. revert t.
  induction files as [|file files IH]; intros t Hd Ha; [by destruct t|].
  simpl. rewrite IH.
  - destruct t as [s d a]. simpl in *. by subst d a.
  - destruct t as [s d a]. simpl in *. by subst d a.
  - destruct t as [s d a]. simpl in *. by subst d a.
Qed.

(** With the editor loaded, a session is the transition system [step]: the
    global is defined, so [addIntellisense$] never completes. *)
Lemma loaded_session_step (t : Session) (input : Input) :
  monacoDefined t = true → addAlive t = true →
  session_step origin getVersionedPackageUrl t (Happens input)
  = with_state (step origin getVersionedPackageUrl (session_state t) input) t.
Proof.
  intros Hd Ha. destruct input as [payload|b|i result b]; simpl.
  - unfold session_updateIntellisense, updateIntellisense.
    destruct (updateAlive (session_state t)); [|by destruct t].
    destruct (updateIntellisense_map origin getVersionedPackageUrl payload
                (session_state t)) as [s1 [[files language]|e]]; [|done].
    rewrite loaded_session_mergeMap by (by destruct t). by destruct t.
  - by rewrite Ha, Hd.
  - by rewrite Ha.
Qed.

Lemma loaded_session_run (t : Session) (inputs : list Input) :
  monacoDefined t = true → addAlive t = true →
  session_run origin getVersionedPackageUrl t (Happens <$> inputs)
  = with_state (run origin getVersionedPackageUrl (session_state t) inputs) t.
Proof.
  unfold session_run, run. revert t.
  induction inputs as [|input inputs IH]; intros t Hd Ha; [by destruct t|].
  rewrite fmap_cons. cbn [foldl]. rewrite loaded_session_step by done.
  rewrite IH by (by destruct t). by destruct t.
Qed.

(** Only a session that began before the editor was loaded loses
    [addIntellisense$]. *)
Lemma loaded_session_alive (t : Session) (events : list Occurrence) :
  monacoDefined t = true → addAlive t = true →
  let t' := session_run origin getVersionedPackageUrl t events in
  monacoDefined t' = true ∧ addAlive t' = true.
Proof.
  unfold session_run. revert t.
  induction events as [|event events IH]; intros t Hd Ha; [done|].
  cbn [foldl]. destruct event as [|input].
  - apply IH; by destruct t.
  - rewrite loaded_session_step by done. apply IH; by destruct t.
Qed.

(** X10. In every session, begun with the editor loaded or before: while
    [addIntellisense$] is alive, each [AddIntellisenseAction] that
    [updateIntellisense$] emitted is waiting for the editor, waiting for its
    response, or answered by exactly one [UpdateIntellisenseSuccessAction].
    The effect completes only in a session that began before the editor was
    loaded, and then no add was ever answered: nothing waits, nothing is
    outstanding, no [UpdateIntellisenseSuccessAction] was emitted, nothing is
    registered and neither the editor nor the network was called. *)
Theorem X10_adds_answered_or_dropped (cache : gmap string string)
    (loaded : bool) (events : list Occurrence) :
  let t := session_run origin getVersionedPackageUrl
             (session_initial cache loaded) events in
  let s := session_state t in
  if addAlive t
  then length (List.filter isAdd (dispatched s))
       = length (waiting s) + length (inflight s)
         + length (List.filter isSuccess (dispatched s))
  else loaded = false
       ∧ waiting s = [] ∧ inflight s = []
       ∧ List.filter isSuccess (dispatched s) = []
       ∧ _current s = [] ∧ calls s = [].
Proof.
  intros t s.
  destruct (session_reachable cache loaded events) as [(_ & Hb & Hq) _].
  fold t in Hb, Hq. fold s in Hb, Hq.
  destruct (addAlive t) eqn:Ha; [by apply Hb|].
  destruct (Hq (or_intror eq_refl)) as (H1 & H2 & H3 & H4 & H5).
  split; [|done]. destruct loaded; [|done].
  destruct (loaded_session_alive (session_initial cache true) events
              eq_refl eq_refl) as [_ H].
  fold t in H. congruence.
Qed.

(** X11. In every session, begun with the editor loaded or before, each
    effect has reported at most once, the error that ended it:
    [updateIntellisense$] has reported nothing while it is alive and one
    [intellisenseUpdateError] for the invalid tab name once it has completed;
    [addIntellisense$] has reported nothing while it is alive and one
    [intellisenseClearError] for the global [monaco] once it has completed;
    and [intellisenseLoadError] is never reported, whatever request or
    registration failed. *)
Theorem X11_one_report_an_effect (cache : gmap string string)
    (loaded : bool) (events : list Occurrence) :
  let t := session_run origin getVersionedPackageUrl
             (session_initial cache loaded) events in
  let s := session_state t in
  reportsOf intellisenseUpdateError (dispatched s)
  = (if updateAlive s then []
     else [ReportErrorAction intellisenseUpdateError InvalidTabName])
  ∧ reportsOf intellisenseClearError (dispatched s)
    = (if addAlive t then []
       else [ReportErrorAction intellisenseClearError MonacoNotDefined])
  ∧ reportsOf intellisenseLoadError (dispatched s) = [].
Proof.
  intros t s.
  destruct (session_reachable cache loaded events) as [_ H]. exact H.
Qed.

End Sessions.

(** A dispatch before the editor is loaded: the first add ends
    [addIntellisense$], and the adds of the passes that follow, with the
    editor loaded by then, find no one to take them up. *)
Example session_before_the_editor :
  let t := session_run sampleOrigin sampleVersionedPackageUrl
             (session_initial ∅ false)
             [Happens (Dispatch lodashPayload); MonacoLoaded;
              Happens (Dispatch lodashPayload); Happens (MonacoReady true)] in
  addAlive t = false
  ∧ dispatched (session_state t)
    = [AddIntellisenseAction lodash "typescript";
       ReportErrorAction intellisenseClearError MonacoNotDefined;
       AddIntellisenseAction authHelpers "typescript";
       AddIntellisenseAction lodash "typescript";
       AddIntellisenseAction authHelpers "typescript"]
  ∧ waiting (session_state t) = []
  ∧ calls (session_state t) = [].
Proof. vm_compute. by repeat split. Qed.

(** The same events with the editor loaded first: the adds wait and the
    first is requested. *)
Example session_after_the_editor :
  let t := session_run sampleOrigin sampleVersionedPackageUrl
             (session_initial ∅ false)
             [MonacoLoaded; Happens (Dispatch lodashPayload);
              Happens (MonacoReady true)] in
  addAlive t = true
  ∧ dispatched (session_state t)
    = [AddIntellisenseAction lodash "typescript";
       AddIntellisenseAction authHelpers "typescript"]
  ∧ waiting_url <$> waiting (session_state t) = [authHelpers]
  ∧ calls (session_state t) = [RequestGet lodash].
Proof. vm_compute. by repeat split. Qed.
